(** * The arithmetic machine: a shallow embedding of [src/main.c]

    The program is a stack machine over C [double]s with two registers, a
    256-slot operand stack and absolute conditional jumps.  This file embeds
    the macros [PUSH], [POP], [NCODE] and [JMP], the functions [newVM],
    [swap], [convertToLittleEndian], [run] and the three bytecode arrays of
    [main], and proves the properties of the machine against them.

    Conventions.
    - [double] is IEEE-754 binary64 and is modelled by Rocq's primitive
      [float] (binary64 with a single NaN); [int] is 32 bits wide.
    - A [char] of the bytecode is a [Z]; converting it to [unsigned char]
      is [to_uchar], reduction modulo 256.
    - C leaves an access outside an array, a read of a slot of the
      [malloc]ed stack that was never written, and signed overflow
      undefined.  The source guards none of them, so the embedding makes
      each one an explicit [Undefined] result instead of inventing a value.
    - [printf] belongs to the C library; its conversions [%f], [%d] and [%x]
      are modelled after the C standard in [Module Libc]. *)

From Stdlib Require Import ZArith Bool Lia String Ascii.
From Stdlib Require Import Floats.PrimFloat Floats.FloatOps Floats.SpecFloat.
From Stdlib Require Import Floats.FloatAxioms.
From Stdlib Require DecimalString HexadecimalString.
From stdpp Require Import base option list gmap strings.

Open Scope Z_scope.

(** ** Constants of the C environment *)

Definition STACK_SIZE : Z := 256.
Definition INT_MAX : Z := 2147483647.
Definition EXIT_SUCCESS : Z := 0.
Definition EXIT_FAILURE : Z := 1.

(** Conversion of a [char] to [unsigned char]. *)
Definition to_uchar (c : Z) : Z := c mod 256.

(** The value of a 32-bit pattern read as a (two's complement) [int]. *)
Definition to_int (w : Z) : Z :=
  let u := w mod 2 ^ 32 in
  if u <? 2 ^ 31 then u else u - 2 ^ 32.

(** ** Object representations and the host byte order *)

Inductive byte_order : Type := LittleEndianHost | BigEndianHost.

(** Modelled from the spec: the macro [LITTLE_ENDIAN], which [src/main.c]
    tests with [#if] but never defines.  The spec describes it as the
    host-endianness flag of the build: the byte swap is compiled in for
    little-endian hosts and left out for big-endian ones. *)
Definition LITTLE_ENDIAN (host : byte_order) : bool :=
  match host with
  | LittleEndianHost => true
  | BigEndianHost => false
  end.

Module Codec.

(** The number denoted by a byte sequence, most significant byte first. *)
Definition big_endian (bs : list Z) : Z :=
  foldl (fun acc b => Z.lor (Z.shiftl acc 8) (to_uchar b)) 0 bs.

(** The number the host reads from the bytes of an object in memory. *)
Definition native (host : byte_order) (bs : list Z) : Z :=
  match host with
  | BigEndianHost => big_endian bs
  | LittleEndianHost => big_endian (rev bs)
  end.

(** The binary64 value of a 64-bit pattern: sign bit, 11 exponent bits,
    52 fraction bits. *)
Definition binary64_of_bits (w : Z) : float :=
  let s := Z.testbit w 63 in
  let e := Z.land (Z.shiftr w 52) 0x7FF in
  let m := Z.land w (2 ^ 52 - 1) in
  SF2Prim
    (if e =? 0 then
       (if m =? 0 then S754_zero s else S754_finite s (Z.to_pos m) (-1074))
     else if e =? 0x7FF then
       (if m =? 0 then S754_infinity s else S754_nan)
     else S754_finite s (Z.to_pos (m + 2 ^ 52)) (e - 1075)).

(** What an [int], respectively a [double], holds once [memcpy] has
    written the bytes [bs] over it. *)
Definition int_of_bytes (host : byte_order) (bs : list Z) : Z :=
  to_int (native host bs).

Definition double_of_bytes (host : byte_order) (bs : list Z) : float :=
  binary64_of_bits (native host bs).

(** [swap(p, a, b)] exchanges two bytes of the object at [p]; both indices
    lie inside the object in every call the program makes. *)
Definition swap (p : list Z) (a b : nat) : list Z :=
  match p !! a, p !! b with
  | Some x, Some y => <[b := x]> (<[a := y]> p)
  | _, _ => p
  end.

(** The [for] loop of [convertToLittleEndian]: [n] iterations remain, the
    counter stands at [i].  The call [swap(p, i, size - i - 1)] converts its
    two [size_t] offsets to the [int] parameters of [swap], which wraps
    values beyond [INT_MAX]; [swap] then indexes the object with them, and
    an index outside the object is undefined ([None]). *)
Fixpoint convert_loop (n : nat) (i size : nat) (p : list Z)
    : option (list Z) :=
  match n with
  | O => Some p
  | S n' =>
      let a := to_int (Z.of_nat i) in
      let b := to_int (Z.of_nat (size - i - 1)) in
      if (0 <=? a) && (a <? Z.of_nat (length p))
         && (0 <=? b) && (b <? Z.of_nat (length p))
      then convert_loop n' (S i) size (swap p (Z.to_nat a) (Z.to_nat b))
      else None
  end.

Definition convertToLittleEndian (p : list Z) (size : nat)
    : option (list Z) :=
  convert_loop (size / 2) 0 size p.

End Codec.

(** ** The conversions of [printf] the program uses *)

Module Libc.

Definition newline : string := String (ascii_of_nat 10) EmptyString.

(** [%d] *)
Definition fmt_d (n : Z) : string :=
  DecimalString.NilZero.string_of_int (Z.to_int n).

(** [%x]: the argument is converted to [unsigned int]. *)
Definition fmt_x (n : Z) : string :=
  HexadecimalString.NilZero.string_of_uint (N.to_hex_uint (Z.to_N (n mod 2 ^ 32))).

(** Rounding of [num / den] to the nearest integer, ties to even. *)
Definition round_half_even (num den : Z) : Z :=
  let q := num / den in
  let r := num mod den in
  if 2 * r <? den then q
  else if (2 * r =? den) && Z.even q then q
  else q + 1.

(** [m * 2^e] in millionths, rounded. *)
Definition millionths (m : positive) (e : Z) : Z :=
  if 0 <=? e then Z.pos m * 2 ^ e * 10 ^ 6
  else round_half_even (Z.pos m * 10 ^ 6) (2 ^ (- e)).

Fixpoint zeros (n : nat) : string :=
  match n with
  | O => EmptyString
  | S n' => String "0" (zeros n')
  end.

Definition fixed6 (n : Z) : string :=
  let frac := fmt_d (n mod 10 ^ 6) in
  fmt_d (n / 10 ^ 6) +:+ "." +:+ zeros (6 - String.length frac) +:+ frac.

Definition sign (s : bool) : string := if s then "-" else "".

(** [%f]: decimal notation with six digits after the point.  The text of
    a NaN is implementation-defined; the model has one NaN and prints
    it as [nan]. *)
Definition fmt_f (v : float) : string :=
  match Prim2SF v with
  | S754_zero s => sign s +:+ "0.000000"
  | S754_infinity s => sign s +:+ "inf"
  | S754_nan => "nan"
  | S754_finite s m e => sign s +:+ fixed6 (millionths m e)
  end.

End Libc.

(** ** The opcodes *)

Inductive opcodes : Type :=
  | HALT | DCONST_M1 | DCONST_0 | DCONST_1 | DCONST_2 | DCONST
  | JEQ | JNE | JLT | JLE | JGT | JGE
  | ADD | SUB | MUL | DIV | NEG
  | NOP | PRINT | ST1 | LD1 | ST2 | LD2.

(** The enumerators' values. *)
Definition opcode_value (o : opcodes) : Z :=
  match o with
  | HALT => 0x00
  | DCONST_M1 => 0x0A | DCONST_0 => 0x0B | DCONST_1 => 0x0C | DCONST_2 => 0x0D
  | DCONST => 0x0F
  | JEQ => 0x10 | JNE => 0x11 | JLT => 0x12
  | JLE => 0x13 | JGT => 0x14 | JGE => 0x15
  | ADD => 0x60 | SUB => 0x61 | MUL => 0x62 | DIV => 0x64
  | NEG => 0x70
  | NOP => 0xF0 | PRINT => 0xF2
  | ST1 => 0xF4 | LD1 => 0xF5 | ST2 => 0xF6 | LD2 => 0xF7
  end.

(** The [case] label the [switch] of [run] selects for a byte; [None] is its
    [default]. *)
Definition opcode_of (b : Z) : option opcodes :=
  match b with
  | 0x00 => Some HALT
  | 0x0A => Some DCONST_M1 | 0x0B => Some DCONST_0
  | 0x0C => Some DCONST_1 | 0x0D => Some DCONST_2
  | 0x0F => Some DCONST
  | 0x10 => Some JEQ | 0x11 => Some JNE | 0x12 => Some JLT
  | 0x13 => Some JLE | 0x14 => Some JGT | 0x15 => Some JGE
  | 0x60 => Some ADD | 0x61 => Some SUB | 0x62 => Some MUL | 0x64 => Some DIV
  | 0x70 => Some NEG
  | 0xF0 => Some NOP | 0xF2 => Some PRINT
  | 0xF4 => Some ST1 | 0xF5 => Some LD1 | 0xF6 => Some ST2 | 0xF7 => Some LD2
  | _ => None
  end.

Definition all_opcodes : list opcodes :=
  [HALT; DCONST_M1; DCONST_0; DCONST_1; DCONST_2; DCONST;
   JEQ; JNE; JLT; JLE; JGT; JGE; ADD; SUB; MUL; DIV; NEG;
   NOP; PRINT; ST1; LD1; ST2; LD2].

(** ** The machine state *)

Record VM : Type := mkVM {
  r1 : float;            (* registers *)
  r2 : float;
  code : list Z;         (* the bytecode the machine points to *)
  stack : gmap Z float;  (* the slots of the stack written so far *)
  pc : Z;                (* program counter *)
  sp : Z                 (* stack pointer *)
}.

Definition set_r1 (v : float) (vm : VM) : VM :=
  mkVM v (r2 vm) (code vm) (stack vm) (pc vm) (sp vm).
Definition set_r2 (v : float) (vm : VM) : VM :=
  mkVM (r1 vm) v (code vm) (stack vm) (pc vm) (sp vm).
Definition set_stack (s : gmap Z float) (vm : VM) : VM :=
  mkVM (r1 vm) (r2 vm) (code vm) s (pc vm) (sp vm).
Definition set_pc (n : Z) (vm : VM) : VM :=
  mkVM (r1 vm) (r2 vm) (code vm) (stack vm) n (sp vm).
Definition set_sp (n : Z) (vm : VM) : VM :=
  mkVM (r1 vm) (r2 vm) (code vm) (stack vm) (pc vm) n.

(** [newVM]: the stack is fresh from [malloc], no slot of it is written. *)
Definition newVM (code : list Z) : VM :=
  {| r1 := 0%float; r2 := 0%float; code := code;
     stack := ∅; pc := 0; sp := -1 |}.

(** ** Computations of the machine

    A computation reads and writes the machine and the text printed so
    far.  It delivers a value, or it is undefined in C. *)

Inductive undefined : Type :=
  | StackOutOfBounds (i : Z)     (* stack[i] with i outside 0 .. 255 *)
  | IndeterminateSlot (i : Z)    (* stack[i] read before it was written *)
  | CodeOutOfBounds (i : Z)      (* code[i] outside the bytecode *)
  | ObjectOutOfBounds            (* swap outside the object it converts *)
  | SignedOverflow.              (* pc beyond INT_MAX *)

Inductive result (A : Type) : Type :=
  | Ok (a : A) (vm : VM) (out : string)
  | Undefined (u : undefined).
Arguments Ok {A} a vm out.
Arguments Undefined {A} u.

Definition M (A : Type) : Type := VM -> string -> result A.

Definition ret {A} (a : A) : M A := fun vm out => Ok a vm out.

Definition bind {A B} (c : M A) (k : A -> M B) : M B :=
  fun vm out =>
    match c vm out with
    | Ok a vm' out' => k a vm' out'
    | Undefined u => Undefined u
    end.

Notation "x <- c ;; k" := (bind c (fun x => k))
  (at level 100, c at next level, right associativity).
Notation "c ;; k" := (bind c (fun _ => k))
  (at level 100, right associativity).

Definition get {A} (f : VM -> A) : M A := fun vm out => Ok (f vm) vm out.
Definition modify (f : VM -> VM) : M unit := fun vm out => Ok tt (f vm) out.
Definition printf (s : string) : M unit := fun vm out => Ok tt vm (out +:+ s).
Definition undef {A} (u : undefined) : M A := fun _ _ => Undefined u.

Definition in_stack (i : Z) : bool := (0 <=? i) && (i <? STACK_SIZE).

(** [PUSH(vm, v)]: [vm->stack[++vm->sp] = v]. *)
Definition PUSH (v : float) : M unit :=
  i <- get (fun vm => sp vm + 1) ;;
  if in_stack i
  then modify (fun vm => set_stack (<[i := v]> (stack vm)) (set_sp i vm))
  else undef (StackOutOfBounds i).

(** [POP(vm)]: [vm->stack[vm->sp--]]. *)
Definition POP : M float :=
  i <- get sp ;;
  if in_stack i
  then slot <- get (fun vm => stack vm !! i) ;;
       match slot with
       | Some v => modify (set_sp (i - 1)) ;; ret v
       | None => undef (IndeterminateSlot i)
       end
  else undef (StackOutOfBounds i).

(** [NCODE(vm)]: [vm->code[vm->pc++]]. *)
Definition NCODE : M Z :=
  i <- get pc ;;
  c <- get (fun vm => if 0 <=? i then code vm !! Z.to_nat i else None) ;;
  match c with
  | Some b =>
      if i <? INT_MAX then modify (set_pc (i + 1)) ;; ret b
      else undef SignedOverflow
  | None => undef (CodeOutOfBounds i)
  end.

(** [memcpy(dst, vm->code + vm->pc, n)]: the [n] bytes of the bytecode from
    [pc] on, all of which must lie inside the bytecode. *)
Definition operand (n : nat) : M (list Z) :=
  i <- get pc ;;
  bs <- get (fun vm => take n (drop (Z.to_nat i) (code vm))) ;;
  if (0 <=? i) && (length bs =? n)%nat then ret bs
  else undef (CodeOutOfBounds i).

Section Host.

Variable host : byte_order.

(** The bytes of an object after the [#if LITTLE_ENDIAN] swap. *)
Definition to_host (bs : list Z) (size : nat) : M (list Z) :=
  if LITTLE_ENDIAN host
  then match Codec.convertToLittleEndian bs size with
       | Some bs' => ret bs'
       | None => undef ObjectOutOfBounds
       end
  else ret bs.

(** [JMP(vm)], in both variants of the macro. *)
Definition JMP : M unit :=
  bs <- operand 4 ;;
  bs' <- to_host bs 4 ;;
  modify (set_pc (Codec.int_of_bytes host bs')).

(** [case DCONST] *)
Definition dconst : M unit :=
  bs <- operand 8 ;;
  i <- get pc ;;
  if i + 8 <=? INT_MAX
  then modify (set_pc (i + 8)) ;;
       bs' <- to_host bs 8 ;;
       PUSH (Codec.double_of_bytes host bs')
  else undef SignedOverflow.

(** The conditional jumps: [if (cond) { JMP(vm); } break;]. *)
Definition jump_if (cond : float -> float -> bool) : M unit :=
  a <- get r1 ;;
  b <- get r2 ;;
  if cond a b then JMP else ret tt.

(** The [switch] of [run]: [Some status] when the case returns from [run],
    [None] when it ends in [break]. *)
Definition exec (opcode : Z) : M (option Z) :=
  match opcode_of opcode with
  | Some HALT => ret (Some EXIT_SUCCESS)
  | Some NOP => ret None
  | Some DCONST_M1 => PUSH (-1)%float ;; ret None
  | Some DCONST_0 => PUSH 0%float ;; ret None
  | Some DCONST_1 => PUSH 1%float ;; ret None
  | Some DCONST_2 => PUSH 2%float ;; ret None
  | Some DCONST => dconst ;; ret None
  | Some JEQ => jump_if PrimFloat.eqb ;; ret None
  | Some JNE => jump_if (fun a b => negb (PrimFloat.eqb a b)) ;; ret None
  | Some JLT => jump_if PrimFloat.ltb ;; ret None
  | Some JLE => jump_if PrimFloat.leb ;; ret None
  | Some JGT => jump_if (fun a b => PrimFloat.ltb b a) ;; ret None
  | Some JGE => jump_if (fun a b => PrimFloat.leb b a) ;; ret None
  | Some ADD => b <- POP ;; a <- POP ;; PUSH (a + b)%float ;; ret None
  | Some MUL => b <- POP ;; a <- POP ;; PUSH (a * b)%float ;; ret None
  | Some SUB => b <- POP ;; a <- POP ;; PUSH (a - b)%float ;; ret None
  | Some DIV =>
      b <- POP ;;
      a <- POP ;;
      if PrimFloat.eqb b 0%float
      then n <- get pc ;;
           printf ("RuntimeException: Division by zero @ PC = "
                     +:+ Libc.fmt_d n +:+ Libc.newline) ;;
           ret (Some EXIT_FAILURE)
      else PUSH (a / b)%float ;; ret None
  | Some NEG => v <- POP ;; PUSH (- v)%float ;; ret None
  | Some LD1 => v <- get r1 ;; PUSH v ;; ret None
  | Some ST1 => v <- POP ;; modify (set_r1 v) ;; ret None
  | Some LD2 => v <- get r2 ;; PUSH v ;; ret None
  | Some ST2 => v <- POP ;; modify (set_r2 v) ;; ret None
  | Some PRINT =>
      v <- POP ;; printf (Libc.fmt_f v +:+ Libc.newline) ;; ret None
  | None =>
      printf ("InvalidOpcodeError: " +:+ Libc.fmt_x opcode +:+ Libc.newline) ;;
      ret (Some EXIT_FAILURE)
  end.

(** One turn of the [for (;;)] loop: fetch into an [unsigned char],
    then the [switch]. *)
Definition step : M (option Z) :=
  c <- NCODE ;;
  exec (to_uchar c).

(** [run], with a bound on the number of turns of the loop: [None] says
    the loop is still running when the bound is reached. *)
Fixpoint run (fuel : nat) : M (option Z) :=
  match fuel with
  | O => ret None
  | S fuel' =>
      r <- step ;;
      match r with
      | Some status => ret (Some status)
      | None => run fuel'
      end
  end.

End Host.

(** ** The bytecode arrays of [main] *)

Definition bytecode : list Z :=
  map opcode_value [DCONST_2; DCONST_1; SUB; PRINT; HALT].

Definition readmebytecode : list Z :=
  [opcode_value DCONST; 0x40; 0x29; 0x14; 0x7A; 0xE1; 0x47; 0xAE; 0x14;
   opcode_value PRINT; opcode_value HALT].

Definition fibonacciCode : list Z :=
  map opcode_value
    [DCONST_0; DCONST_0; PRINT; DCONST_1; DCONST_1; PRINT;
     ST2; ST1; LD1; LD2; ADD; ST1; LD1; LD1; PRINT;
     LD2; ADD; ST2; LD2; PRINT; LD1; LD2; DCONST]
  ++ [0x40; 0x59; 0; 0; 0; 0; 0; 0]
  ++ map opcode_value [ST1; JGT]
  ++ [0; 0; 0; 6]
  ++ [opcode_value HALT].

(** [main]: runs the Fibonacci program on a new machine and returns the
    status of [run]. *)
Definition main (host : byte_order) (fuel : nat) : result (option Z) :=
  run host fuel (newVM fibonacciCode) "".

(** ** Vocabulary of the statements *)

(** The byte the next [NCODE] delivers, as the [unsigned char] that [run]
    stores in [opcode]; [None] when the fetch is undefined. *)
Definition fetch (vm : VM) : option Z :=
  if (0 <=? pc vm) && (pc vm <? INT_MAX)
  then to_uchar <$> code vm !! Z.to_nat (pc vm)
  else None.

(** The [n] bytes that follow the opcode at [pc]. *)
Definition operand_bytes (n : nat) (vm : VM) : list Z :=
  take n (drop (Z.to_nat (pc vm + 1)) (code vm)).

(** The comparison of [r1] with [r2] that guards a jump opcode. *)
Definition jump_cond (o : opcodes) : option (float -> float -> bool) :=
  match o with
  | JEQ => Some PrimFloat.eqb
  | JNE => Some (fun a b => negb (PrimFloat.eqb a b))
  | JLT => Some PrimFloat.ltb
  | JLE => Some PrimFloat.leb
  | JGT => Some (fun a b => PrimFloat.ltb b a)
  | JGE => Some (fun a b => PrimFloat.leb b a)
  | _ => None
  end.

(** [run] has left its loop (with a status) or has gone undefined, as
    opposed to having used up the bound on its turns. *)
Definition finished (r : result (option Z)) : Prop :=
  match r with
  | Ok None _ _ => False
  | _ => True
  end.

(** A computation leaves the component [f] of the machine as it found it. *)
Definition keeps {A B} (f : VM -> B) (c : M A) : Prop :=
  forall vm out a vm' out', c vm out = Ok a vm' out' -> f vm' = f vm.

(** Programs of the scenarios. *)
Definition div_by_zero_code : list Z :=
  map opcode_value [DCONST_1; DCONST_0; DIV; PRINT; HALT].

Definition invalid_code : list Z := [0xFF; opcode_value HALT].

(** A jump that is not taken, over a program that prints when it is run
    from the byte after the operand. *)
Definition skipped_jump_code : list Z :=
  [opcode_value JNE; 0; 0; 0; 7]
  ++ map opcode_value [DCONST_1; PRINT; HALT].

(** A loop that pushes on every turn, and a program that pops at once. *)
Definition push_forever_code : list Z :=
  [opcode_value DCONST_0; opcode_value JEQ; 0; 0; 0; 0].

Definition pop_empty_code : list Z := map opcode_value [PRINT; HALT].

Definition store_empty_code : list Z := map opcode_value [ST1; HALT].

(** Machine states used as instances: the stack holds [a] below [b], the
    registers are zero and [pc] stands at offset [at_pc] of [prog]. *)
Definition two_on_stack (prog : list Z) (at_pc : Z) (a b : float) : VM :=
  mkVM 0%float 0%float prog (<[1 := b]> (<[0 := a]> ∅)) at_pc 1.

(** A case of the [switch] that never returns from [run]: it ends in
    [break] or is undefined. *)
Definition breaks (c : M (option Z)) : Prop :=
  forall vm out status vm' out', c vm out <> Ok (Some status) vm' out'.

(** What [main] prints: the Fibonacci numbers up to 233, one per line. *)
Definition fibonacci_output : string :=
  String.concat Libc.newline
    ["0.000000"; "1.000000"; "1.000000"; "2.000000"; "3.000000"; "5.000000";
     "8.000000"; "13.000000"; "21.000000"; "34.000000"; "55.000000";
     "89.000000"; "144.000000"; "233.000000"; ""].

(** ** Vocabulary of the further properties *)

(** The effect of a computation that delivers a value relates the machine
    and output it starts from to those it ends with by [R]. *)
Definition respects {A} (R : VM -> string -> VM -> string -> Prop)
    (c : M A) : Prop :=
  forall vm out a vm' out', c vm out = Ok a vm' out' -> R vm out vm' out'.

(** The stack pointer is -1 or the index of a slot, and every slot up to it
    has been written. *)
Definition well_formed (vm : VM) : Prop :=
  -1 <= sp vm < STACK_SIZE
  /\ forall i, 0 <= i <= sp vm -> is_Some (stack vm !! i).

(** The change of [sp] over a turn of the loop that ends in [break]. *)
Definition stack_effect (o : opcodes) : Z :=
  match o with
  | DCONST_M1 | DCONST_0 | DCONST_1 | DCONST_2 | DCONST | LD1 | LD2 => 1
  | ADD | SUB | MUL | DIV | PRINT | ST1 | ST2 => -1
  | HALT | NOP | NEG | JEQ | JNE | JLT | JLE | JGT | JGE => 0
  end.

(** The number of operand bytes an opcode reads. *)
Definition operand_size (o : opcodes) : Z :=
  match o with
  | DCONST => 8
  | JEQ | JNE | JLT | JLE | JGT | JGE => 4
  | _ => 0
  end.

(** The result is the undefined read of a stack slot that was never
    written. *)
Definition indeterminate_read {A} (r : result A) : bool :=
  match r with
  | Undefined (IndeterminateSlot _) => true
  | _ => false
  end.

(** A computation started on a well-formed machine ends on a well-formed
    machine, or is undefined for another reason than the read of a slot that
    was never written. *)
Definition disciplined {A} (c : M A) : Prop :=
  forall vm out,
    well_formed vm ->
    match c vm out with
    | Ok _ vm' _ => well_formed vm'
    | Undefined u => indeterminate_read (@Undefined A u) = false
    end.

(** The relations of two invariants of [run]: the bytecode stays the same,
    the output is only extended. *)
Definition same_code (vm : VM) (out : string) (vm' : VM) (out' : string) : Prop :=
  code vm' = code vm.

Definition output_extended (vm : VM) (out : string) (vm' : VM) (out' : string)
    : Prop :=
  exists s, out' = out +:+ s.

(** A computation that delivers a value has moved the counter [f] of the
    machine ([sp] or [pc]) by [d]. *)
Definition moves {A} (f : VM -> Z) (d : Z) (c : M A) : Prop :=
  forall vm out a vm' out', c vm out = Ok a vm' out' -> f vm' = f vm + d.

(** The operation of a binary arithmetic opcode. *)
Definition binop (o : opcodes) : option (float -> float -> float) :=
  match o with
  | ADD => Some PrimFloat.add
  | SUB => Some PrimFloat.sub
  | MUL => Some PrimFloat.mul
  | DIV => Some PrimFloat.div
  | _ => None
  end.

(** Two machines agree on all that the program can rely on: the registers,
    the bytecode, [pc], [sp] and the stack slots up to [sp].  The slots above
    [sp], memory that [malloc] returned unset or that a [POP] has left
    behind, may differ. *)
Definition same_live_state (vm1 vm2 : VM) : Prop :=
  r1 vm1 = r1 vm2 /\ r2 vm1 = r2 vm2 /\ code vm1 = code vm2
  /\ pc vm1 = pc vm2 /\ sp vm1 = sp vm2
  /\ forall i, 0 <= i <= sp vm1 -> stack vm1 !! i = stack vm2 !! i.

(** Two results agree: the same value, the same output and machines with
    the same live state, or the same undefined access. *)
Definition agree {A} (x y : result A) : Prop :=
  match x, y with
  | Ok a vm1 out1, Ok b vm2 out2 =>
      a = b /\ out1 = out2 /\ same_live_state vm1 vm2
  | Undefined u, Undefined u' => u = u'
  | _, _ => False
  end.

(** A computation does not look at the dead part of the stack. *)
Definition stable {A} (c : M A) : Prop :=
  forall vm1 vm2 out,
    same_live_state vm1 vm2 -> agree (c vm1 out) (c vm2 out).

(** The run from a machine has one outcome: a status and an output that
    every finished run delivers. *)
Definition determined (host : byte_order) (vm : VM) (out : string) : Prop :=
  exists (status : Z) (out' : string),
    forall fuel : nat,
      finished (run host fuel vm out) ->
      exists vm', run host fuel vm out = Ok (Some status) vm' out'.

(** A new machine on [bytecode] whose stack memory is not empty but holds
    what an earlier use left there. *)
Definition dirty_newVM : VM :=
  mkVM 0%float 0%float bytecode (<[5 := 9%float]> (<[0 := 7%float]> ∅)) 0 (-1).

(** * Properties *)

(** ** The opcode table *)

Lemma opcode_of_value (o : opcodes) : opcode_of (opcode_value o) = Some o.
Proof. destruct o; reflexivity. Qed.

(** A byte either falls to the [default] of the [switch] or is the value of
    the enumerator whose [case] it selects. *)
Lemma opcode_of_cases (b : Z) :
  opcode_of b = None \/ exists o, opcode_of b = Some o /\ b = opcode_value o.
Proof.
  destruct b as [|p|p]; [right; exists HALT; split; reflexivity | | left; reflexivity].
  do 8 (try (destruct p as [p|p|]));
    first [ left; reflexivity | right; eexists; split; reflexivity ].
Qed.

Lemma opcode_of_Some (b : Z) (o : opcodes) :
  opcode_of b = Some o -> b = opcode_value o.
Proof.
  intros H. destruct (opcode_of_cases b) as [E | (o' & E & ->)]; congruence.
Qed.

Lemma opcode_of_None (b : Z) :
  b ∉ map opcode_value all_opcodes -> opcode_of b = None.
Proof.
  intros Hb. destruct (opcode_of_cases b) as [E | (o & E & ->)]; [exact E|].
  exfalso. apply Hb. apply list_elem_of_In, in_map.
  destruct o; simpl; tauto.
Qed.

(** ** The byte swap *)

Lemma convertToLittleEndian_4 (bs : list Z) :
  length bs = 4%nat -> Codec.convertToLittleEndian bs 4 = Some (rev bs).
Proof.
  intros H. do 5 (destruct bs as [|? bs]; try discriminate H). reflexivity.
Qed.

Lemma convertToLittleEndian_8 (bs : list Z) :
  length bs = 8%nat -> Codec.convertToLittleEndian bs 8 = Some (rev bs).
Proof.
  intros H. do 9 (destruct bs as [|? bs]; try discriminate H). reflexivity.
Qed.

(** With the swap compiled in exactly on little-endian hosts, every host
    reads the operand most significant byte first. *)
Lemma native_to_host_4 (host : byte_order) (bs : list Z) :
  length bs = 4%nat ->
  exists bs', to_host host bs 4 = ret bs'
              /\ Codec.native host bs' = Codec.big_endian bs.
Proof.
  intros H. destruct host; unfold to_host, Codec.native; simpl LITTLE_ENDIAN.
  - rewrite (convertToLittleEndian_4 bs H). eexists. split; [reflexivity|].
    rewrite rev_involutive. reflexivity.
  - eexists. split; reflexivity.
Qed.

Lemma native_to_host_8 (host : byte_order) (bs : list Z) :
  length bs = 8%nat ->
  exists bs', to_host host bs 8 = ret bs'
              /\ Codec.native host bs' = Codec.big_endian bs.
Proof.
  intros H. destruct host; unfold to_host, Codec.native; simpl LITTLE_ENDIAN.
  - rewrite (convertToLittleEndian_8 bs H). eexists. split; [reflexivity|].
    rewrite rev_involutive. reflexivity.
  - eexists. split; reflexivity.
Qed.

(** ** The macros *)

Lemma PUSH_in_bounds (v : float) (vm : VM) (out : string) :
  in_stack (sp vm + 1) = true ->
  PUSH v vm out
  = Ok tt (mkVM (r1 vm) (r2 vm) (code vm) (<[sp vm + 1 := v]> (stack vm))
             (pc vm) (sp vm + 1)) out.
Proof. intros H. unfold PUSH, bind, get. rewrite H. reflexivity. Qed.

Lemma PUSH_out_of_bounds (v : float) (vm : VM) (out : string) :
  in_stack (sp vm + 1) = false ->
  PUSH v vm out = Undefined (StackOutOfBounds (sp vm + 1)).
Proof. intros H. unfold PUSH, bind, get. rewrite H. reflexivity. Qed.

Lemma POP_in_bounds (v : float) (vm : VM) (out : string) :
  in_stack (sp vm) = true ->
  stack vm !! sp vm = Some v ->
  POP vm out
  = Ok v (mkVM (r1 vm) (r2 vm) (code vm) (stack vm) (pc vm) (sp vm - 1)) out.
Proof. intros H E. unfold POP, bind, get. rewrite H, E. reflexivity. Qed.

Lemma POP_out_of_bounds (vm : VM) (out : string) :
  in_stack (sp vm) = false ->
  POP vm out = Undefined (StackOutOfBounds (sp vm)).
Proof. intros H. unfold POP, bind, get. rewrite H. reflexivity. Qed.

Lemma in_stack_true (i : Z) : in_stack i = true <-> 0 <= i < STACK_SIZE.
Proof. unfold in_stack. rewrite andb_true_iff, Z.leb_le, Z.ltb_lt. tauto. Qed.

(** A turn of the loop whose fetch is defined runs the [switch] on the
    fetched byte with [pc] already past it. *)
Lemma step_fetch (host : byte_order) (vm : VM) (out : string) (b : Z) :
  fetch vm = Some b ->
  step host vm out = exec host b (set_pc (pc vm + 1) vm) out.
Proof.
  unfold fetch, step, NCODE, bind, get. intros H.
  destruct (0 <=? pc vm) eqn:E0; [|discriminate H].
  destruct (pc vm <? INT_MAX) eqn:E1; [|discriminate H].
  simpl in H. destruct (code vm !! Z.to_nat (pc vm)) as [c|]; [|discriminate H].
  simpl in H. injection H as <-. reflexivity.
Qed.

Lemma step_fetch_undefined (host : byte_order) (vm : VM) (out : string) :
  fetch vm = None -> exists u, step host vm out = Undefined u.
Proof.
  unfold fetch, step, NCODE, bind, get. intros H.
  destruct (0 <=? pc vm) eqn:E0; [|eexists; reflexivity].
  destruct (code vm !! Z.to_nat (pc vm)) as [c|]; [|eexists; reflexivity].
  destruct (pc vm <? INT_MAX) eqn:E1; [discriminate H|eexists; reflexivity].
Qed.

Lemma operand_in_bounds (n : nat) (vm : VM) (out : string) :
  0 <= pc vm ->
  length (take n (drop (Z.to_nat (pc vm)) (code vm))) = n ->
  operand n vm out = Ok (take n (drop (Z.to_nat (pc vm)) (code vm))) vm out.
Proof.
  intros H0 Hn. unfold operand, bind, get.
  apply Z.leb_le in H0. rewrite H0. apply Nat.eqb_eq in Hn. rewrite Hn.
  reflexivity.
Qed.

Lemma POP_inv (vm vm' : VM) (out out' : string) (v : float) :
  POP vm out = Ok v vm' out' ->
  0 <= sp vm < STACK_SIZE /\ stack vm !! sp vm = Some v
  /\ vm' = mkVM (r1 vm) (r2 vm) (code vm) (stack vm) (pc vm) (sp vm - 1)
  /\ out' = out.
Proof.
  unfold POP, bind, get. destruct (in_stack (sp vm)) eqn:Hb; [|discriminate].
  destruct (stack vm !! sp vm) as [w|] eqn:Hs; [|discriminate].
  unfold modify, ret. intros [= <- <- <-]. apply in_stack_true in Hb.
  repeat split; trivial; lia.
Qed.

(** ** Fuel *)

(** Once [run] has finished within a bound, a larger bound changes nothing. *)
Lemma run_more_fuel (host : byte_order) (f f' : nat) (vm : VM) (out : string) :
  finished (run host f vm out) -> (f <= f')%nat ->
  run host f' vm out = run host f vm out.
Proof.
  revert f' vm out. induction f as [|f IH]; intros f' vm out Hfin Hle.
  - contradiction Hfin.
  - destruct f' as [|f']; [lia|].
    simpl in *. unfold bind in *.
    destruct (step host vm out) as [[st|] vm1 out1|u]; trivial.
    apply IH; [exact Hfin | lia].
Qed.

Lemma run_step_returns (host : byte_order) (fuel : nat) (vm vm' : VM)
    (out out' : string) (status : Z) :
  step host vm out = Ok (Some status) vm' out' ->
  run host (S fuel) vm out = Ok (Some status) vm' out'.
Proof. intros H. simpl. unfold bind. rewrite H. reflexivity. Qed.

(** ** Frame lemmas *)

Lemma keeps_ret {A B} (f : VM -> B) (a : A) : keeps f (ret a).
Proof. intros vm out a' vm' out' [= _ <- _]. reflexivity. Qed.

Lemma keeps_get {A B} (f : VM -> B) (g : VM -> A) : keeps f (get g).
Proof. intros vm out a' vm' out' [= _ <- _]. reflexivity. Qed.

Lemma keeps_printf {B} (f : VM -> B) (s : string) : keeps f (printf s).
Proof. intros vm out a' vm' out' [= _ <- _]. reflexivity. Qed.

Lemma keeps_undef {A B} (f : VM -> B) (u : undefined) : keeps f (@undef A u).
Proof. intros vm out a' vm' out' [=]. Qed.

Lemma keeps_modify {B} (f : VM -> B) (g : VM -> VM) :
  (forall vm, f (g vm) = f vm) -> keeps f (modify g).
Proof. intros H vm out a' vm' out' [= _ <- _]. apply H. Qed.

Lemma keeps_bind {A B C} (f : VM -> C) (c : M A) (k : A -> M B) :
  keeps f c -> (forall a, keeps f (k a)) -> keeps f (bind c k).
Proof.
  intros Hc Hk vm out b vm' out'. unfold bind.
  destruct (c vm out) as [a vm1 out1|u] eqn:E; [|discriminate].
  intros H. rewrite (Hk a _ _ _ _ _ H). exact (Hc _ _ _ _ _ E).
Qed.

Lemma keeps_if {A B} (f : VM -> B) (b : bool) (c1 c2 : M A) :
  keeps f c1 -> keeps f c2 -> keeps f (if b then c1 else c2).
Proof. destruct b; trivial. Qed.

Ltac frame :=
  repeat first
    [ apply keeps_bind; [|intros ?]
    | apply keeps_if
    | apply keeps_ret | apply keeps_get | apply keeps_printf
    | apply keeps_undef
    | apply keeps_modify; intros ?; reflexivity
    | match goal with |- keeps _ (match ?x with _ => _ end) => destruct x end ].

Lemma keeps_r1_PUSH (v : float) : keeps r1 (PUSH v).
Proof. unfold PUSH. frame. Qed.

Lemma keeps_r2_PUSH (v : float) : keeps r2 (PUSH v).
Proof. unfold PUSH. frame. Qed.

Lemma keeps_r1_POP : keeps r1 POP.
Proof. unfold POP. frame. Qed.

Lemma keeps_r2_POP : keeps r2 POP.
Proof. unfold POP. frame. Qed.

Lemma keeps_r1_operand (n : nat) : keeps r1 (operand n).
Proof. unfold operand. frame. Qed.

Lemma keeps_r2_operand (n : nat) : keeps r2 (operand n).
Proof. unfold operand. frame. Qed.

Lemma keeps_to_host {B} (f : VM -> B) (host : byte_order) (bs : list Z)
    (size : nat) :
  keeps f (to_host host bs size).
Proof.
  unfold to_host. destruct (LITTLE_ENDIAN host); [|apply keeps_ret].
  destruct (Codec.convertToLittleEndian bs size);
    [apply keeps_ret | apply keeps_undef].
Qed.

Ltac frame_ops :=
  repeat first
    [ apply keeps_to_host
    | apply keeps_r1_PUSH | apply keeps_r2_PUSH
    | apply keeps_r1_POP | apply keeps_r2_POP
    | apply keeps_r1_operand | apply keeps_r2_operand
    | apply keeps_bind; [|intros ?]
    | apply keeps_if
    | apply keeps_ret | apply keeps_get | apply keeps_printf
    | apply keeps_undef
    | apply keeps_modify; intros ?; reflexivity ].

Lemma keeps_r1_JMP (host : byte_order) : keeps r1 (JMP host).
Proof. unfold JMP. frame_ops. Qed.

Lemma keeps_r2_JMP (host : byte_order) : keeps r2 (JMP host).
Proof. unfold JMP. frame_ops. Qed.

(** Every [case] of the [switch] but [ST1] leaves [r1] alone. *)
Lemma keeps_r1_exec (host : byte_order) (b : Z) :
  b <> opcode_value ST1 -> keeps r1 (exec host b).
Proof.
  intros Hb. unfold exec.
  destruct (opcode_of b) as [o|] eqn:E.
  - apply opcode_of_Some in E.
    destruct o; try (contradiction (Hb E));
      unfold jump_if, dconst, JMP; frame_ops.
  - frame_ops.
Qed.

(** Every [case] of the [switch] but [ST2] leaves [r2] alone. *)
Lemma keeps_r2_exec (host : byte_order) (b : Z) :
  b <> opcode_value ST2 -> keeps r2 (exec host b).
Proof.
  intros Hb. unfold exec.
  destruct (opcode_of b) as [o|] eqn:E.
  - apply opcode_of_Some in E.
    destruct o; try (contradiction (Hb E));
      unfold jump_if, dconst, JMP; frame_ops.
  - frame_ops.
Qed.

(** * The claims *)

(** ** Arithmetic *)

(** One turn of the loop at a [SUB] whose two operands are on the stack. *)
Lemma step_SUB (host : byte_order) (vm : VM) (out : string) (a b : float) :
  fetch vm = Some (opcode_value SUB) ->
  1 <= sp vm < STACK_SIZE ->
  stack vm !! sp vm = Some b ->
  stack vm !! (sp vm - 1) = Some a ->
  step host vm out
  = Ok None (mkVM (r1 vm) (r2 vm) (code vm)
               (<[sp vm - 1 := (a - b)%float]> (stack vm))
               (pc vm + 1) (sp vm - 1)) out.
Proof.
  intros Hf Hsp Hb Ha.
  rewrite (step_fetch _ _ _ _ Hf). unfold exec. rewrite opcode_of_value.
  unfold bind at 1.
  rewrite (POP_in_bounds b); [| apply in_stack_true; simpl; lia | exact Hb].
  unfold bind at 1.
  rewrite (POP_in_bounds a); [| apply in_stack_true; simpl; lia | exact Ha].
  unfold bind at 1.
  rewrite PUSH_in_bounds; [| apply in_stack_true; simpl; lia].
  simpl. unfold ret. do 2 f_equal; [f_equal|]; lia.
Qed.

(** C2.  With [b] on top of the stack and [a] below it, [SUB] pops [b], then
    [a], and pushes [a - b] in their place: the stack is one shorter, the
    slot that held [a] holds the difference, and nothing is printed.  The
    program [DCONST_2, DCONST_1, SUB, PRINT, HALT] run from [pc = 0] on a new
    machine prints exactly [1.000000] and a newline and returns
    [EXIT_SUCCESS], on either host. *)
Theorem sub_pushes_a_minus_b :
  (forall (host : byte_order) (vm : VM) (out : string) (a b : float),
      fetch vm = Some (opcode_value SUB) ->
      1 <= sp vm < STACK_SIZE ->
      stack vm !! sp vm = Some b ->
      stack vm !! (sp vm - 1) = Some a ->
      step host vm out
      = Ok None (mkVM (r1 vm) (r2 vm) (code vm)
                   (<[sp vm - 1 := (a - b)%float]> (stack vm))
                   (pc vm + 1) (sp vm - 1)) out)
  /\ (forall host : byte_order,
         exists vm', run host 5 (newVM bytecode) ""
                     = Ok (Some EXIT_SUCCESS) vm' ("1.000000" +:+ Libc.newline)
                     /\ pc vm' = 5 /\ sp vm' = -1).
Proof.
  split.
  - exact step_SUB.
  - intros host. eexists. split; [|split].
    + destruct host; vm_compute; reflexivity.
    + destruct host; reflexivity.
    + destruct host; reflexivity.
Qed.

Lemma sub_pushes_a_minus_b_witness :
  step LittleEndianHost (two_on_stack bytecode 2 2 1) ""
  = Ok None
      (mkVM 0%float 0%float bytecode
         (<[0 := (2 - 1)%float]> (stack (two_on_stack bytecode 2 2 1))) 3 0) "".
Proof.
  apply (proj1 sub_pushes_a_minus_b LittleEndianHost
           (two_on_stack bytecode 2 2 1) "" 2%float 1%float).
  - reflexivity.
  - simpl. unfold STACK_SIZE. lia.
  - reflexivity.
  - reflexivity.
Defined.

(** ** Division by zero *)

(** One turn of the loop at a [DIV] whose divisor compares equal to zero. *)
Lemma step_DIV_zero (host : byte_order) (vm : VM) (out : string) (a b : float) :
  fetch vm = Some (opcode_value DIV) ->
  1 <= sp vm < STACK_SIZE ->
  stack vm !! sp vm = Some b ->
  stack vm !! (sp vm - 1) = Some a ->
  PrimFloat.eqb b 0%float = true ->
  step host vm out
  = Ok (Some EXIT_FAILURE)
      (mkVM (r1 vm) (r2 vm) (code vm) (stack vm) (pc vm + 1) (sp vm - 2))
      (out +:+ "RuntimeException: Division by zero @ PC = "
           +:+ Libc.fmt_d (pc vm + 1) +:+ Libc.newline).
Proof.
  intros Hf Hsp Hb Ha Hz.
  rewrite (step_fetch _ _ _ _ Hf). unfold exec. rewrite opcode_of_value.
  unfold bind at 1.
  rewrite (POP_in_bounds b); [| apply in_stack_true; simpl; lia | exact Hb].
  unfold bind at 1.
  rewrite (POP_in_bounds a); [| apply in_stack_true; simpl; lia | exact Ha].
  rewrite Hz. simpl. unfold bind, get, printf, ret. simpl.
  do 2 f_equal. lia.
Qed.

(** C3.  A [DIV] that pops a divisor [b] with [b == 0] (and then its
    dividend) ends the run at once: [run] returns [EXIT_FAILURE] after
    printing the diagnostic with the program counter, and the stack slots
    are left as they were, so no quotient is pushed.  The program
    [DCONST_1, DCONST_0, DIV, PRINT, HALT] returns [EXIT_FAILURE] with the
    diagnostic as its whole output: [PRINT] prints nothing. *)
Theorem div_by_zero_fails :
  (forall (host : byte_order) (vm : VM) (out : string) (a b : float)
          (fuel : nat),
      fetch vm = Some (opcode_value DIV) ->
      1 <= sp vm < STACK_SIZE ->
      stack vm !! sp vm = Some b ->
      stack vm !! (sp vm - 1) = Some a ->
      PrimFloat.eqb b 0%float = true ->
      run host (S fuel) vm out
      = Ok (Some EXIT_FAILURE)
          (mkVM (r1 vm) (r2 vm) (code vm) (stack vm) (pc vm + 1) (sp vm - 2))
          (out +:+ "RuntimeException: Division by zero @ PC = "
               +:+ Libc.fmt_d (pc vm + 1) +:+ Libc.newline))
  /\ (forall host : byte_order,
         exists vm', run host 3 (newVM div_by_zero_code) ""
                     = Ok (Some EXIT_FAILURE) vm'
                         ("RuntimeException: Division by zero @ PC = 3"
                            +:+ Libc.newline)
                     /\ pc vm' = 3).
Proof.
  split.
  - intros host vm out a b fuel Hf Hsp Hb Ha Hz.
    apply run_step_returns. exact (step_DIV_zero host vm out a b Hf Hsp Hb Ha Hz).
  - intros host. eexists. split.
    + destruct host; vm_compute; reflexivity.
    + destruct host; reflexivity.
Qed.

Lemma div_by_zero_fails_witness :
  run BigEndianHost 1 (two_on_stack div_by_zero_code 2 1 (-0)) "out: "
  = Ok (Some EXIT_FAILURE)
      (mkVM 0%float 0%float div_by_zero_code
         (stack (two_on_stack div_by_zero_code 2 1 (-0))) 3 (-1))
      ("out: RuntimeException: Division by zero @ PC = 3" +:+ Libc.newline).
Proof.
  apply (proj1 div_by_zero_fails BigEndianHost
           (two_on_stack div_by_zero_code 2 1 (-0)) "out: " 1%float (-0)%float
           O).
  - reflexivity.
  - simpl. unfold STACK_SIZE. lia.
  - reflexivity.
  - reflexivity.
  - reflexivity.
Defined.

(** C9.  Whenever a turn of the loop at a [DIV] returns [EXIT_FAILURE], the
    machine it leaves has [sp] two below its value before the [DIV], the
    same stack slots (no quotient was written), the same [r1] and [r2], and
    the program counter that the diagnostic prints is the offset of the byte
    right after the [DIV] opcode. *)
Theorem div_by_zero_state (host : byte_order) (vm vm' : VM)
    (out out' : string) :
  fetch vm = Some (opcode_value DIV) ->
  step host vm out = Ok (Some EXIT_FAILURE) vm' out' ->
  sp vm' = sp vm - 2
  /\ stack vm' = stack vm
  /\ r1 vm' = r1 vm /\ r2 vm' = r2 vm
  /\ pc vm' = pc vm + 1
  /\ out' = out +:+ "RuntimeException: Division by zero @ PC = "
                +:+ Libc.fmt_d (pc vm + 1) +:+ Libc.newline.
Proof.
  intros Hf. rewrite (step_fetch _ _ _ _ Hf). unfold exec.
  rewrite opcode_of_value. unfold bind at 1.
  destruct (POP _ out) as [b vm1 out1|u] eqn:E1; [|discriminate].
  apply POP_inv in E1. destruct E1 as (_ & _ & -> & ->).
  unfold bind at 1.
  destruct (POP _ out) as [a vm2 out2|u] eqn:E2; [|discriminate].
  apply POP_inv in E2. destruct E2 as (_ & _ & -> & ->).
  destruct (PrimFloat.eqb b 0) eqn:Hz.
  - unfold bind, get, printf, ret. simpl. intros [= <- <-]. simpl.
    repeat split; trivial; lia.
  - unfold bind at 1. destruct (PUSH _ _ out) as [? vm3 out3|u]; discriminate.
Qed.

Lemma div_by_zero_state_witness :
  let vm := two_on_stack div_by_zero_code 2 1 0 in
  let vm' := mkVM 0%float 0%float div_by_zero_code (stack vm) 3 (-1) in
  let out' := "RuntimeException: Division by zero @ PC = 3" +:+ Libc.newline in
  sp vm' = sp vm - 2
  /\ stack vm' = stack vm
  /\ r1 vm' = r1 vm /\ r2 vm' = r2 vm
  /\ pc vm' = pc vm + 1
  /\ out' = "" +:+ "RuntimeException: Division by zero @ PC = "
               +:+ Libc.fmt_d (pc vm + 1) +:+ Libc.newline.
Proof.
  apply (div_by_zero_state LittleEndianHost
           (two_on_stack div_by_zero_code 2 1 0)
           (mkVM 0%float 0%float div_by_zero_code
              (stack (two_on_stack div_by_zero_code 2 1 0)) 3 (-1))
           "" ("RuntimeException: Division by zero @ PC = 3" +:+ Libc.newline)).
  - reflexivity.
  - reflexivity.
Defined.

(** ** Invalid opcodes *)

(** C4.  A fetched byte that is none of the 23 opcode values ends the run at
    once: [run] prints [InvalidOpcodeError:] with the byte in hexadecimal
    and returns [EXIT_FAILURE]; nothing but [pc], already past the byte, has
    changed.  The program [0xFF, HALT] returns [EXIT_FAILURE] after printing
    [InvalidOpcodeError: ff], with [pc = 1]: the [HALT] is never fetched. *)
Theorem invalid_opcode_fails :
  (forall (host : byte_order) (vm : VM) (out : string) (b : Z) (fuel : nat),
      fetch vm = Some b ->
      b ∉ map opcode_value all_opcodes ->
      run host (S fuel) vm out
      = Ok (Some EXIT_FAILURE) (set_pc (pc vm + 1) vm)
          (out +:+ "InvalidOpcodeError: " +:+ Libc.fmt_x b +:+ Libc.newline))
  /\ (forall (host : byte_order) (fuel : nat),
         run host (S fuel) (newVM invalid_code) ""
         = Ok (Some EXIT_FAILURE) (set_pc 1 (newVM invalid_code))
             ("InvalidOpcodeError: ff" +:+ Libc.newline)).
Proof.
  assert (G : forall (host : byte_order) (vm : VM) (out : string) (b : Z)
                     (fuel : nat),
             fetch vm = Some b ->
             b ∉ map opcode_value all_opcodes ->
             run host (S fuel) vm out
             = Ok (Some EXIT_FAILURE) (set_pc (pc vm + 1) vm)
                 (out +:+ "InvalidOpcodeError: " +:+ Libc.fmt_x b
                      +:+ Libc.newline)).
  { intros host vm out b fuel Hf Hb. apply run_step_returns.
    rewrite (step_fetch _ _ _ _ Hf). unfold exec.
    rewrite (opcode_of_None b Hb). reflexivity. }
  split; [exact G|].
  intros host fuel. apply (G host (newVM invalid_code) "" 0xFF fuel).
  - reflexivity.
  - intros H. apply list_elem_of_In in H. simpl in H.
    repeat (destruct H as [H|H]; [discriminate H|]). exact H.
Qed.

Lemma invalid_opcode_fails_witness :
  run LittleEndianHost 1 (newVM invalid_code) ""
  = Ok (Some EXIT_FAILURE) (set_pc 1 (newVM invalid_code))
      ("InvalidOpcodeError: ff" +:+ Libc.newline).
Proof.
  apply (proj1 invalid_opcode_fails LittleEndianHost (newVM invalid_code) ""
           0xFF O).
  - reflexivity.
  - apply (bool_decide_unpack _). vm_compute. exact I.
Defined.

(** ** Immediate operands *)

(** One turn of the loop at a [DCONST] followed by its eight bytes. *)
Lemma step_DCONST (host : byte_order) (vm : VM) (out : string) :
  fetch vm = Some (opcode_value DCONST) ->
  length (operand_bytes 8 vm) = 8%nat ->
  pc vm + 9 <= INT_MAX ->
  0 <= sp vm + 1 < STACK_SIZE ->
  step host vm out
  = Ok None
      (mkVM (r1 vm) (r2 vm) (code vm)
         (<[sp vm + 1
            := Codec.binary64_of_bits (Codec.big_endian (operand_bytes 8 vm))]>
            (stack vm))
         (pc vm + 9) (sp vm + 1)) out.
Proof.
  intros Hf Hlen Hpc Hsp.
  assert (H0 : 0 <= pc vm).
  { unfold fetch in Hf. destruct (0 <=? pc vm) eqn:E; [|discriminate Hf].
    apply Z.leb_le. exact E. }
  rewrite (step_fetch _ _ _ _ Hf). unfold exec. rewrite opcode_of_value.
  unfold bind at 1. unfold dconst. unfold bind at 1.
  rewrite operand_in_bounds; [| simpl; lia | exact Hlen].
  unfold bind at 1, get at 1.
  change (pc (set_pc (pc vm + 1) vm)) with (pc vm + 1).
  change (code (set_pc (pc vm + 1) vm)) with (code vm).
  fold (operand_bytes 8 vm).
  assert (E : (pc vm + 1 + 8 <=? INT_MAX) = true) by (apply Z.leb_le; lia).
  rewrite E. unfold bind at 1, modify at 1.
  destruct (native_to_host_8 host _ Hlen) as (bs' & Eh & En).
  unfold bind at 1. rewrite Eh. unfold ret at 1.
  rewrite PUSH_in_bounds; [| apply in_stack_true; simpl; lia].
  unfold ret, Codec.double_of_bytes. simpl. rewrite En.
  do 2 f_equal. lia.
Qed.

(** C6.  [DCONST] pushes the binary64 value whose bit pattern is its eight
    operand bytes read most significant byte first, on little-endian and on
    big-endian hosts alike, and leaves [pc] past the operand.  The program
    [DCONST, 40 29 14 7A E1 47 AE 14, PRINT, HALT] prints [12.540000] and a
    newline and returns [EXIT_SUCCESS] on either host. *)
Theorem dconst_pushes_wire_value :
  (forall (host : byte_order) (vm : VM) (out : string),
      fetch vm = Some (opcode_value DCONST) ->
      length (operand_bytes 8 vm) = 8%nat ->
      pc vm + 9 <= INT_MAX ->
      0 <= sp vm + 1 < STACK_SIZE ->
      step host vm out
      = Ok None
          (mkVM (r1 vm) (r2 vm) (code vm)
             (<[sp vm + 1
                := Codec.binary64_of_bits
                     (Codec.big_endian (operand_bytes 8 vm))]> (stack vm))
             (pc vm + 9) (sp vm + 1)) out)
  /\ (forall host : byte_order,
         exists vm', run host 3 (newVM readmebytecode) ""
                     = Ok (Some EXIT_SUCCESS) vm'
                         ("12.540000" +:+ Libc.newline)
                     /\ pc vm' = 11).
Proof.
  split.
  - exact step_DCONST.
  - intros host. eexists. split.
    + destruct host; vm_compute; reflexivity.
    + destruct host; reflexivity.
Qed.

Lemma dconst_pushes_wire_value_witness :
  step BigEndianHost (newVM readmebytecode) ""
  = Ok None
      (mkVM 0%float 0%float readmebytecode
         (<[0 := Codec.binary64_of_bits 0x4029147AE147AE14]> ∅) 9 0) "".
Proof.
  apply (proj1 dconst_pushes_wire_value BigEndianHost (newVM readmebytecode) "").
  - reflexivity.
  - reflexivity.
  - simpl. unfold INT_MAX. lia.
  - simpl. unfold STACK_SIZE. lia.
Defined.

(** ** Conditional jumps *)

(** A jump whose comparison holds sets [pc] to the [int] its four operand
    bytes denote, most significant byte first, on either host. *)
Lemma step_jump_taken (host : byte_order) (vm : VM) (out : string)
    (o : opcodes) (cond : float -> float -> bool) :
  jump_cond o = Some cond ->
  fetch vm = Some (opcode_value o) ->
  cond (r1 vm) (r2 vm) = true ->
  length (operand_bytes 4 vm) = 4%nat ->
  step host vm out
  = Ok None (set_pc (to_int (Codec.big_endian (operand_bytes 4 vm))) vm) out.
Proof.
  intros Hc Hf Ht Hlen.
  assert (H0 : 0 <= pc vm).
  { unfold fetch in Hf. destruct (0 <=? pc vm) eqn:E; [|discriminate Hf].
    apply Z.leb_le. exact E. }
  rewrite (step_fetch _ _ _ _ Hf). unfold exec. rewrite opcode_of_value.
  destruct o; try discriminate Hc; injection Hc as <-;
    unfold bind at 1, jump_if, bind at 1, get at 1, bind at 1, get at 1;
    cbn [r1 r2 set_pc]; rewrite Ht;
    unfold JMP, bind at 1;
    (rewrite operand_in_bounds; [| simpl; lia | exact Hlen]);
    destruct (native_to_host_4 host _ Hlen) as (bs' & Eh & En);
    simpl code in Eh |- *; simpl pc in Eh |- *;
    fold (operand_bytes 4 vm) in Eh |- *;
    unfold bind at 1; rewrite Eh;
    unfold modify, ret, Codec.int_of_bytes; simpl; rewrite En;
    reflexivity.
Qed.

(** A jump whose comparison fails changes nothing: [pc] stays where the
    fetch of the opcode left it, on the first operand byte. *)
Lemma step_jump_not_taken (host : byte_order) (vm : VM) (out : string)
    (o : opcodes) (cond : float -> float -> bool) :
  jump_cond o = Some cond ->
  fetch vm = Some (opcode_value o) ->
  cond (r1 vm) (r2 vm) = false ->
  step host vm out = Ok None (set_pc (pc vm + 1) vm) out.
Proof.
  intros Hc Hf Ht.
  rewrite (step_fetch _ _ _ _ Hf). unfold exec. rewrite opcode_of_value.
  destruct o; try discriminate Hc; injection Hc as <-;
    unfold bind at 1, jump_if, bind at 1, get at 1, bind at 1, get at 1;
    cbn [r1 r2 set_pc]; rewrite Ht; reflexivity.
Qed.

(** C1, on the program [JNE 0 0 0 7, DCONST_1, PRINT, HALT] run on a new
    machine.  [r1] and [r2] are both zero, so the jump is not taken; the
    operand is not consumed: after the turn of the loop [pc] is 1, the
    offset of the first operand byte, not 5.  The next fetch reads that
    byte, 0x00, as [HALT]: the run returns [EXIT_SUCCESS] with [pc = 2] and
    has printed nothing, where a machine that skipped the operand would
    have printed [1.000000]. *)
Theorem not_taken_jump_keeps_operand (host : byte_order) :
  step host (newVM skipped_jump_code) ""
  = Ok None (set_pc 1 (newVM skipped_jump_code)) ""
  /\ fetch (set_pc 1 (newVM skipped_jump_code)) = Some (opcode_value HALT)
  /\ run host 2 (newVM skipped_jump_code) ""
     = Ok (Some EXIT_SUCCESS) (set_pc 2 (newVM skipped_jump_code)) ""
  /\ run host 3 (set_pc 5 (newVM skipped_jump_code)) ""
     = Ok (Some EXIT_SUCCESS)
         (mkVM 0%float 0%float skipped_jump_code (<[0 := 1%float]> ∅) 8 (-1))
         ("1.000000" +:+ Libc.newline).
Proof. destruct host; repeat split; vm_compute; reflexivity. Qed.

(** C10.  The Fibonacci program of [main] returns [EXIT_SUCCESS], and it
    does so on an operand byte.  After 119 turns of the loop the machine
    stands on the [JGT] at offset 32 with [r1 = 100] and [r2 = 233], so the
    comparison [r1 > r2] fails; the turn leaves [pc] at 33, the first of the
    operand bytes [0 0 0 6]; that byte, 0x00, is fetched as [HALT] and the
    run ends with [pc = 34], while the [HALT] written after the operand sits
    at offset 37 and is never fetched. *)
Theorem fibonacci_halts_on_operand_byte (host : byte_order) :
  exists (vm32 vm33 vm34 : VM) (out : string),
    run host 119 (newVM fibonacciCode) "" = Ok None vm32 out
    /\ pc vm32 = 32
    /\ fetch vm32 = Some (opcode_value JGT)
    /\ operand_bytes 4 vm32 = [0; 0; 0; 6]
    /\ r1 vm32 = 100%float
    /\ r2 vm32 = 233%float
    /\ PrimFloat.ltb (r2 vm32) (r1 vm32) = false
    /\ step host vm32 out = Ok None vm33 out
    /\ pc vm33 = 33
    /\ fetch vm33 = Some (opcode_value HALT)
    /\ step host vm33 out = Ok (Some EXIT_SUCCESS) vm34 out
    /\ pc vm34 = 34
    /\ code vm34 !! 37%nat = Some (opcode_value HALT)
    /\ main host 121 = Ok (Some EXIT_SUCCESS) vm34 out
    /\ out = fibonacci_output.
Proof.
  destruct host; do 4 eexists;
    repeat (split; [vm_compute; reflexivity|]); vm_compute; reflexivity.
Qed.

(** ** Stack bounds *)

Lemma breaks_ret_None : breaks (ret None).
Proof. intros vm out status vm' out'. discriminate. Qed.

Lemma breaks_bind {A} (c : M A) (k : A -> M (option Z)) :
  (forall a, breaks (k a)) -> breaks (bind c k).
Proof.
  intros Hk vm out status vm' out'. unfold bind.
  destruct (c vm out) as [a vm1 out1|u]; [apply Hk | discriminate].
Qed.

Ltac breaks := repeat (apply breaks_bind; intros ?); apply breaks_ret_None.

(** The [switch] returns from [run] in three cases only: [HALT], with
    [EXIT_SUCCESS]; [DIV] and the [default], with [EXIT_FAILURE]. *)
Lemma exec_status (host : byte_order) (b : Z) (vm vm' : VM)
    (out out' : string) (status : Z) :
  exec host b vm out = Ok (Some status) vm' out' ->
  (status = EXIT_SUCCESS /\ opcode_of b = Some HALT)
  \/ (status = EXIT_FAILURE /\ (opcode_of b = Some DIV \/ opcode_of b = None)).
Proof.
  unfold exec. destruct (opcode_of b) as [o|] eqn:E.
  - destruct o;
      try (intros H; exfalso;
           match type of H with
           | ?c vm out = _ =>
               assert (Hb : breaks c) by breaks; exact (Hb _ _ _ _ _ H)
           end).
    + intros [= <- _ _]. left. split; reflexivity.
    + unfold bind at 1. destruct (POP vm out) as [d vm1 out1|u]; [|discriminate].
      unfold bind at 1. destruct (POP vm1 out1) as [a vm2 out2|u]; [|discriminate].
      destruct (PrimFloat.eqb d 0).
      * unfold bind, get, printf, ret. intros [= <- _ _].
        right. split; [reflexivity | left; reflexivity].
      * intros H. exfalso.
        assert (Hb : breaks (PUSH (a / d)%float ;; ret None)) by breaks.
        exact (Hb _ _ _ _ _ H).
  - unfold bind, printf, ret. intros [= <- _ _].
    right. split; [reflexivity | right; reflexivity].
Qed.

Lemma opcode_of_None_inv (b : Z) :
  opcode_of b = None -> b ∉ map opcode_value all_opcodes.
Proof.
  intros E H. apply list_elem_of_In, in_map_iff in H.
  destruct H as (o & <- & _). rewrite opcode_of_value in E. discriminate E.
Qed.

(** C5, as the code has it.  [PUSH] and [POP] test no bound.  A push onto a
    stack that holds 256 values writes [stack[256]] and a pop from the empty
    stack reads [stack[-1]], both outside the stack: the behaviour is
    undefined, no error is raised.  [run] knows no stack error: a turn of
    the loop returns only at [HALT], with [EXIT_SUCCESS], or with
    [EXIT_FAILURE] at a [DIV] or at a byte that is no opcode. *)
Theorem stack_bounds_unchecked :
  (forall (v : float) (vm : VM) (out : string),
      sp vm + 1 = STACK_SIZE ->
      PUSH v vm out = Undefined (StackOutOfBounds STACK_SIZE))
  /\ (forall (vm : VM) (out : string),
         sp vm = -1 ->
         POP vm out = Undefined (StackOutOfBounds (-1)))
  /\ (forall (host : byte_order) (vm vm' : VM) (out out' : string)
             (b status : Z),
         fetch vm = Some b ->
         step host vm out = Ok (Some status) vm' out' ->
         (status = EXIT_SUCCESS /\ b = opcode_value HALT)
         \/ (status = EXIT_FAILURE
             /\ (b = opcode_value DIV \/ b ∉ map opcode_value all_opcodes))).
Proof.
  split; [|split].
  - intros v vm out H. rewrite PUSH_out_of_bounds; rewrite H.
    + reflexivity.
    + reflexivity.
  - intros vm out H. rewrite POP_out_of_bounds; rewrite H; reflexivity.
  - intros host vm vm' out out' b status Hf.
    rewrite (step_fetch _ _ _ _ Hf). intros H.
    apply exec_status in H. destruct H as [[-> E] | [-> [E | E]]].
    + left. split; [reflexivity | exact (opcode_of_Some _ _ E)].
    + right. split; [reflexivity | left; exact (opcode_of_Some _ _ E)].
    + right. split; [reflexivity | right; exact (opcode_of_None_inv _ E)].
Qed.

Lemma stack_bounds_unchecked_witness :
  PUSH 1%float (mkVM 0%float 0%float push_forever_code ∅ 1 255) ""
  = Undefined (StackOutOfBounds STACK_SIZE)
  /\ POP (newVM pop_empty_code) "" = Undefined (StackOutOfBounds (-1)).
Proof.
  split.
  - apply (proj1 stack_bounds_unchecked). reflexivity.
  - apply (proj1 (proj2 stack_bounds_unchecked)). reflexivity.
Defined.

(** C5 as the claim states it fails.  The loop [DCONST_0; JEQ 0 0 0 0]
    pushes on every second turn: after 512 turns the stack holds 256 values,
    and the next push is undefined, not a [StackOverflow] failure.  On a new
    machine [PRINT] pops the empty stack: undefined, not a [StackUnderflow]
    failure. *)
Lemma stack_errors_not_raised :
  (exists vm : VM,
      run LittleEndianHost 512 (newVM push_forever_code) "" = Ok None vm ""
      /\ sp vm + 1 = STACK_SIZE
      /\ fetch vm = Some (opcode_value DCONST_0)
      /\ step LittleEndianHost vm "" = Undefined (StackOutOfBounds STACK_SIZE)
      /\ run LittleEndianHost 513 (newVM push_forever_code) ""
         = Undefined (StackOutOfBounds STACK_SIZE))
  /\ sp (newVM pop_empty_code) = -1
  /\ fetch (newVM pop_empty_code) = Some (opcode_value PRINT)
  /\ run LittleEndianHost 1 (newVM pop_empty_code) ""
     = Undefined (StackOutOfBounds (-1)).
Proof.
  split.
  - eexists. repeat (split; [vm_compute; reflexivity|]). vm_compute. reflexivity.
  - repeat (split; [vm_compute; reflexivity|]). vm_compute. reflexivity.
Qed.

(** ** Registers *)

Lemma step_LD1 (host : byte_order) (vm : VM) (out : string) :
  fetch vm = Some (opcode_value LD1) ->
  0 <= sp vm + 1 < STACK_SIZE ->
  step host vm out
  = Ok None (mkVM (r1 vm) (r2 vm) (code vm) (<[sp vm + 1 := r1 vm]> (stack vm))
               (pc vm + 1) (sp vm + 1)) out.
Proof.
  intros Hf Hsp. rewrite (step_fetch _ _ _ _ Hf). unfold exec.
  rewrite opcode_of_value. unfold bind at 1, get at 1, bind at 1.
  rewrite PUSH_in_bounds; [reflexivity | apply in_stack_true; simpl; lia].
Qed.

Lemma step_LD2 (host : byte_order) (vm : VM) (out : string) :
  fetch vm = Some (opcode_value LD2) ->
  0 <= sp vm + 1 < STACK_SIZE ->
  step host vm out
  = Ok None (mkVM (r1 vm) (r2 vm) (code vm) (<[sp vm + 1 := r2 vm]> (stack vm))
               (pc vm + 1) (sp vm + 1)) out.
Proof.
  intros Hf Hsp. rewrite (step_fetch _ _ _ _ Hf). unfold exec.
  rewrite opcode_of_value. unfold bind at 1, get at 1, bind at 1.
  rewrite PUSH_in_bounds; [reflexivity | apply in_stack_true; simpl; lia].
Qed.

Lemma step_ST1 (host : byte_order) (vm : VM) (out : string) (v : float) :
  fetch vm = Some (opcode_value ST1) ->
  0 <= sp vm < STACK_SIZE ->
  stack vm !! sp vm = Some v ->
  step host vm out
  = Ok None (mkVM v (r2 vm) (code vm) (stack vm) (pc vm + 1) (sp vm - 1)) out.
Proof.
  intros Hf Hsp Hv. rewrite (step_fetch _ _ _ _ Hf). unfold exec.
  rewrite opcode_of_value. unfold bind at 1.
  rewrite (POP_in_bounds v); [reflexivity | apply in_stack_true; simpl; lia
                             | exact Hv].
Qed.

Lemma step_ST2 (host : byte_order) (vm : VM) (out : string) (v : float) :
  fetch vm = Some (opcode_value ST2) ->
  0 <= sp vm < STACK_SIZE ->
  stack vm !! sp vm = Some v ->
  step host vm out
  = Ok None (mkVM (r1 vm) v (code vm) (stack vm) (pc vm + 1) (sp vm - 1)) out.
Proof.
  intros Hf Hsp Hv. rewrite (step_fetch _ _ _ _ Hf). unfold exec.
  rewrite opcode_of_value. unfold bind at 1.
  rewrite (POP_in_bounds v); [reflexivity | apply in_stack_true; simpl; lia
                             | exact Hv].
Qed.

(** The stores never return from [run]. *)
Lemma step_store_breaks (host : byte_order) (vm : VM) (b : Z) :
  fetch vm = Some b ->
  b = opcode_value ST1 \/ b = opcode_value ST2 ->
  forall out status vm' out', step host vm out <> Ok (Some status) vm' out'.
Proof.
  intros Hf Hb out status vm' out'. rewrite (step_fetch _ _ _ _ Hf).
  intros H. apply exec_status in H.
  destruct Hb as [-> | ->]; rewrite opcode_of_value in H;
    destruct H as [[_ E] | [_ [E | E]]]; discriminate E.
Qed.

(** C7, as the code has it.  A new machine has [r1 = r2 = 0.0].  A turn of
    the loop on any byte other than [ST1] leaves [r1] as it was, and on any
    byte other than [ST2] leaves [r2] as it was.  [LD1] and [LD2] push the
    value of their register and change neither register.  [ST1] and [ST2]
    have no failure status: they never return from [run] and print nothing,
    and whenever [sp] addresses a written slot of the stack they complete,
    moving that slot's value into the register. *)
Theorem registers_frame :
  (forall prog : list Z,
      r1 (newVM prog) = 0%float /\ r2 (newVM prog) = 0%float)
  /\ (forall (host : byte_order) (vm vm' : VM) (out out' : string)
             (b : Z) (r : option Z),
         fetch vm = Some b ->
         step host vm out = Ok r vm' out' ->
         (b <> opcode_value ST1 -> r1 vm' = r1 vm)
         /\ (b <> opcode_value ST2 -> r2 vm' = r2 vm))
  /\ (forall (host : byte_order) (vm : VM) (out : string),
         fetch vm = Some (opcode_value LD1) ->
         0 <= sp vm + 1 < STACK_SIZE ->
         step host vm out
         = Ok None (mkVM (r1 vm) (r2 vm) (code vm)
                      (<[sp vm + 1 := r1 vm]> (stack vm))
                      (pc vm + 1) (sp vm + 1)) out)
  /\ (forall (host : byte_order) (vm : VM) (out : string),
         fetch vm = Some (opcode_value LD2) ->
         0 <= sp vm + 1 < STACK_SIZE ->
         step host vm out
         = Ok None (mkVM (r1 vm) (r2 vm) (code vm)
                      (<[sp vm + 1 := r2 vm]> (stack vm))
                      (pc vm + 1) (sp vm + 1)) out)
  /\ (forall (host : byte_order) (vm : VM) (out : string) (v : float),
         fetch vm = Some (opcode_value ST1) ->
         0 <= sp vm < STACK_SIZE ->
         stack vm !! sp vm = Some v ->
         step host vm out
         = Ok None (mkVM v (r2 vm) (code vm) (stack vm)
                      (pc vm + 1) (sp vm - 1)) out)
  /\ (forall (host : byte_order) (vm : VM) (out : string) (v : float),
         fetch vm = Some (opcode_value ST2) ->
         0 <= sp vm < STACK_SIZE ->
         stack vm !! sp vm = Some v ->
         step host vm out
         = Ok None (mkVM (r1 vm) v (code vm) (stack vm)
                      (pc vm + 1) (sp vm - 1)) out)
  /\ (forall (host : byte_order) (vm : VM) (b : Z),
         fetch vm = Some b ->
         b = opcode_value ST1 \/ b = opcode_value ST2 ->
         forall out status vm' out',
           step host vm out <> Ok (Some status) vm' out').
Proof.
  split; [|split; [|split; [|split; [|split; [|split]]]]].
  - intros prog. split; reflexivity.
  - intros host vm vm' out out' b r Hf. rewrite (step_fetch _ _ _ _ Hf).
    intros H. split; intros Hb.
    + exact (keeps_r1_exec host b Hb _ _ _ _ _ H).
    + exact (keeps_r2_exec host b Hb _ _ _ _ _ H).
  - exact step_LD1.
  - exact step_LD2.
  - exact step_ST1.
  - exact step_ST2.
  - exact step_store_breaks.
Qed.

Lemma registers_frame_witness :
  let vm := two_on_stack (map opcode_value [ST2; LD1; HALT]) 0 3 5 in
  step BigEndianHost vm ""
  = Ok None (mkVM 0%float 5%float (code vm) (stack vm) 1 0) "".
Proof.
  apply (proj1 (proj2 (proj2 (proj2 (proj2 (proj2 registers_frame)))))
           BigEndianHost
           (two_on_stack (map opcode_value [ST2; LD1; HALT]) 0 3 5) ""
           5%float).
  - reflexivity.
  - simpl. unfold STACK_SIZE. lia.
  - reflexivity.
Defined.

(** C7 as the claim states it fails at its last clause.  On a new machine
    the stack is empty and [ST1] pops [stack[-1]]: the turn of the loop is
    undefined, it does not succeed. *)
Lemma store_on_empty_stack_undefined :
  fetch (newVM store_empty_code) = Some (opcode_value ST1)
  /\ sp (newVM store_empty_code) = -1
  /\ step LittleEndianHost (newVM store_empty_code) ""
     = Undefined (StackOutOfBounds (-1))
  /\ step BigEndianHost (newVM store_empty_code) ""
     = Undefined (StackOutOfBounds (-1)).
Proof. repeat split. Qed.

(** ** Determinism *)

Lemma same_live_state_refl (vm : VM) : same_live_state vm vm.
Proof. repeat split. Qed.

Lemma stable_ret {A} (a : A) : stable (ret a).
Proof. intros vm1 vm2 out H. repeat split; apply H. Qed.

Lemma stable_undef {A} (u : undefined) : stable (@undef A u).
Proof. intros vm1 vm2 out H. reflexivity. Qed.

Lemma stable_printf (s : string) : stable (printf s).
Proof. intros vm1 vm2 out H. repeat split; apply H. Qed.

Lemma stable_get {A} (g : VM -> A) :
  (forall vm1 vm2, same_live_state vm1 vm2 -> g vm1 = g vm2) ->
  stable (get g).
Proof. intros Hg vm1 vm2 out H. split; [apply Hg, H|]. split; [reflexivity | exact H]. Qed.

Lemma stable_modify (g : VM -> VM) :
  (forall vm1 vm2,
      same_live_state vm1 vm2 -> same_live_state (g vm1) (g vm2)) ->
  stable (modify g).
Proof. intros Hg vm1 vm2 out H. repeat split; apply Hg, H. Qed.

Lemma stable_bind {A B} (c : M A) (k : A -> M B) :
  stable c -> (forall a, stable (k a)) -> stable (bind c k).
Proof.
  intros Hc Hk vm1 vm2 out H. unfold bind. specialize (Hc vm1 vm2 out H).
  destruct (c vm1 out) as [a v1 o1|u1], (c vm2 out) as [b v2 o2|u2];
    try contradiction.
  - destruct Hc as (<- & <- & Hs). exact (Hk a v1 v2 o1 Hs).
  - exact Hc.
Qed.

Lemma stable_if {A} (b : bool) (c1 c2 : M A) :
  stable c1 -> stable c2 -> stable (if b then c1 else c2).
Proof. destruct b; trivial. Qed.

(** [PUSH] writes the same value to the same slot of both machines. *)
Lemma stable_PUSH (v : float) : stable (PUSH v).
Proof.
  intros vm1 vm2 out H. destruct H as (H1 & H2 & Hc & Hp & Hs & Hl).
  unfold PUSH, bind, get. rewrite <- Hs.
  destruct (in_stack (sp vm1 + 1)) eqn:Hb; [|reflexivity].
  apply in_stack_true in Hb. unfold modify.
  split; [reflexivity|]. split; [reflexivity|].
  repeat split; simpl; try assumption; try congruence.
  intros i Hi. destruct (decide (i = sp vm1 + 1)) as [->|Hne].
  - rewrite !lookup_insert_eq. reflexivity.
  - rewrite !lookup_insert_ne by congruence. apply Hl. lia.
Qed.

(** [POP] reads the slot at [sp], which is live. *)
Lemma stable_POP : stable POP.
Proof.
  intros vm1 vm2 out H. destruct H as (H1 & H2 & Hc & Hp & Hs & Hl).
  unfold POP, bind, get. rewrite <- Hs.
  destruct (in_stack (sp vm1)) eqn:Hb; [|reflexivity].
  apply in_stack_true in Hb. rewrite <- (Hl (sp vm1)) by lia.
  destruct (stack vm1 !! sp vm1) as [v|]; [|reflexivity].
  unfold modify, ret.
  split; [reflexivity|]. split; [reflexivity|].
  repeat split; simpl; try assumption.
  intros i Hi. apply Hl. lia.
Qed.

Lemma stable_NCODE : stable NCODE.
Proof.
  intros vm1 vm2 out H. destruct H as (H1 & H2 & Hc & Hp & Hs & Hl).
  unfold NCODE, bind, get. rewrite <- Hp, <- Hc.
  destruct (if 0 <=? pc vm1 then code vm1 !! Z.to_nat (pc vm1) else None);
    [|reflexivity].
  destruct (pc vm1 <? INT_MAX); [|reflexivity].
  unfold modify, ret. repeat split; simpl; assumption.
Qed.

Lemma stable_operand (n : nat) : stable (operand n).
Proof.
  intros vm1 vm2 out H. destruct H as (H1 & H2 & Hc & Hp & Hs & Hl).
  unfold operand, bind, get. rewrite <- Hp, <- Hc.
  destruct (_ && _); [|reflexivity].
  unfold ret. repeat split; simpl; assumption.
Qed.

Lemma stable_to_host (host : byte_order) (bs : list Z) (size : nat) :
  stable (to_host host bs size).
Proof.
  unfold to_host. destruct (LITTLE_ENDIAN host); [|apply stable_ret].
  destruct (Codec.convertToLittleEndian bs size);
    [apply stable_ret | apply stable_undef].
Qed.

Ltac stable_field :=
  let H := fresh in
  intros ? ? H; destruct H as (? & ? & ? & ? & ? & ?);
  first [ congruence | repeat split; simpl; assumption ].

Ltac stable :=
  repeat first
    [ apply stable_PUSH | apply stable_POP | apply stable_operand
    | apply stable_to_host | apply stable_printf | apply stable_ret
    | apply stable_undef
    | apply stable_get; stable_field
    | apply stable_modify; stable_field
    | apply stable_if
    | apply stable_bind; [|intros ?] ].

Lemma stable_exec (host : byte_order) (b : Z) : stable (exec host b).
Proof.
  unfold exec. destruct (opcode_of b) as [o|];
    [destruct o|]; unfold jump_if, dconst, JMP; stable.
Qed.

Lemma stable_step (host : byte_order) : stable (step host).
Proof.
  unfold step. apply stable_bind; [apply stable_NCODE|].
  intros c. apply stable_exec.
Qed.

Lemma stable_run (host : byte_order) (fuel : nat) : stable (run host fuel).
Proof.
  induction fuel as [|fuel IH]; simpl.
  - apply stable_ret.
  - apply stable_bind; [apply stable_step|].
    intros [status|]; [apply stable_ret | exact IH].
Qed.

(** C8, as the code has it.  Whenever a run ends with a status, the status
    and the printed text are fixed by the bytecode and the live state of the
    machine it started from: every other run from a machine with the same
    registers, bytecode, [pc], [sp] and stack slots up to [sp] that has
    finished ends with the same status and the same text, whatever the
    memory of the stack above [sp] holds and however many turns of the loop
    either run is allowed.  Nothing is said of a run that leaves the stack
    or the bytecode: its behaviour is undefined. *)
Theorem run_determined_by_live_state (host : byte_order) (vm1 vm2 vm1' : VM)
    (out out1 : string) (fuel1 fuel2 : nat) (status : Z) :
  same_live_state vm1 vm2 ->
  run host fuel1 vm1 out = Ok (Some status) vm1' out1 ->
  finished (run host fuel2 vm2 out) ->
  exists vm2',
    run host fuel2 vm2 out = Ok (Some status) vm2' out1
    /\ same_live_state vm1' vm2'.
Proof.
  intros Hs H1 H2.
  pose proof (stable_run host (Nat.max fuel1 fuel2) vm1 vm2 out Hs) as Ha.
  rewrite (run_more_fuel host fuel1 (Nat.max fuel1 fuel2) vm1 out) in Ha;
    [| rewrite H1; exact I | lia].
  rewrite (run_more_fuel host fuel2 (Nat.max fuel1 fuel2) vm2 out H2) in Ha
    by lia.
  rewrite H1 in Ha.
  destruct (run host fuel2 vm2 out) as [r vm2' out2|u]; [|contradiction].
  destruct Ha as (<- & <- & Hl). exists vm2'. split; [reflexivity | exact Hl].
Qed.

Lemma run_determined_by_live_state_witness :
  exists vm2',
    run BigEndianHost 9 dirty_newVM ""
    = Ok (Some EXIT_SUCCESS) vm2' ("1.000000" +:+ Libc.newline)
    /\ same_live_state
         (mkVM 0%float 0%float bytecode
            (<[0 := 1%float]> (<[1 := 1%float]> (<[0 := 2%float]> ∅))) 5 (-1))
         vm2'.
Proof.
  apply (run_determined_by_live_state BigEndianHost (newVM bytecode)
           dirty_newVM _ "" _ 5 9 EXIT_SUCCESS).
  - repeat split. intros i Hi. simpl in Hi. lia.
  - vm_compute. reflexivity.
  - vm_compute. exact I.
Defined.

(** C8 as the claim states it fails.  On a new machine the program
    [PRINT, HALT] pops [stack[-1]]: the run is undefined, so the bytecode
    fixes neither a printed value nor a terminal status. *)
Lemma undefined_run_not_determined :
  fetch (newVM pop_empty_code) = Some (opcode_value PRINT)
  /\ run LittleEndianHost 1 (newVM pop_empty_code) ""
     = Undefined (StackOutOfBounds (-1))
  /\ run BigEndianHost 1 (newVM pop_empty_code) ""
     = Undefined (StackOutOfBounds (-1))
  /\ (determined LittleEndianHost (newVM pop_empty_code) "" -> False)
  /\ (determined BigEndianHost (newVM pop_empty_code) "" -> False).
Proof.
  repeat split.
  - intros (status & out' & H). destruct (H 1%nat I) as [vm' E]. discriminate E.
  - intros (status & out' & H). destruct (H 1%nat I) as [vm' E]. discriminate E.
Qed.

(** * Further properties of the code *)

(** ** Relations every turn of the loop respects *)

Section Respects.

Variable R : VM -> string -> VM -> string -> Prop.

Hypothesis R_refl : forall vm out, R vm out vm out.
Hypothesis R_trans : forall vm1 out1 vm2 out2 vm3 out3,
  R vm1 out1 vm2 out2 -> R vm2 out2 vm3 out3 -> R vm1 out1 vm3 out3.

(** What the primitive effects of the machine do to [R]. *)
Hypothesis R_pc : forall n vm out, R vm out (set_pc n vm) out.
Hypothesis R_r1 : forall v vm out, R vm out (set_r1 v vm) out.
Hypothesis R_r2 : forall v vm out, R vm out (set_r2 v vm) out.
Hypothesis R_printf : forall s vm out, R vm out vm (out +:+ s).
Hypothesis R_push : forall v vm out,
  0 <= sp vm + 1 < STACK_SIZE ->
  R vm out
    (set_stack (<[sp vm + 1 := v]> (stack vm)) (set_sp (sp vm + 1) vm)) out.
Hypothesis R_pop : forall v vm out,
  0 <= sp vm < STACK_SIZE -> stack vm !! sp vm = Some v ->
  R vm out (set_sp (sp vm - 1) vm) out.

Lemma respects_ret {A} (a : A) : respects R (ret a).
Proof. intros vm out a' vm' out' [= _ <- <-]. apply R_refl. Qed.

Lemma respects_get {A} (g : VM -> A) : respects R (get g).
Proof. intros vm out a' vm' out' [= _ <- <-]. apply R_refl. Qed.

Lemma respects_undef {A} (u : undefined) : respects R (@undef A u).
Proof. intros vm out a' vm' out' [=]. Qed.

Lemma respects_printf (s : string) : respects R (printf s).
Proof. intros vm out a' vm' out' [= _ <- <-]. apply R_printf. Qed.

Lemma respects_bind {A B} (c : M A) (k : A -> M B) :
  respects R c -> (forall a, respects R (k a)) -> respects R (bind c k).
Proof.
  intros Hc Hk vm out b vm' out'. unfold bind.
  destruct (c vm out) as [a vm1 out1|u] eqn:E; [|discriminate].
  intros H. exact (R_trans _ _ _ _ _ _ (Hc _ _ _ _ _ E) (Hk a _ _ _ _ _ H)).
Qed.

Lemma respects_if {A} (b : bool) (c1 c2 : M A) :
  respects R c1 -> respects R c2 -> respects R (if b then c1 else c2).
Proof. destruct b; trivial. Qed.

Lemma respects_PUSH (v : float) : respects R (PUSH v).
Proof.
  intros vm out a vm' out'. unfold PUSH, bind, get.
  destruct (in_stack (sp vm + 1)) eqn:Hb; [|discriminate].
  intros [= _ <- <-]. apply R_push, in_stack_true, Hb.
Qed.

Lemma respects_POP : respects R POP.
Proof.
  intros vm out a vm' out' H. apply POP_inv in H.
  destruct H as (Hb & Hs & -> & ->). exact (R_pop a vm out Hb Hs).
Qed.

Lemma respects_NCODE : respects R NCODE.
Proof.
  intros vm out a vm' out'. unfold NCODE, bind, get.
  destruct (if 0 <=? pc vm then code vm !! Z.to_nat (pc vm) else None);
    [|discriminate].
  destruct (pc vm <? INT_MAX); [|discriminate].
  intros [= _ <- <-]. apply R_pc.
Qed.

Lemma respects_operand (n : nat) : respects R (operand n).
Proof.
  intros vm out a vm' out'. unfold operand, bind, get.
  destruct (_ && _); [|discriminate]. intros [= _ <- <-]. apply R_refl.
Qed.

Lemma respects_set_pc (n : Z) : respects R (modify (set_pc n)).
Proof. intros vm out a vm' out' [= _ <- <-]. apply R_pc. Qed.

Lemma respects_set_r1 (v : float) : respects R (modify (set_r1 v)).
Proof. intros vm out a vm' out' [= _ <- <-]. apply R_r1. Qed.

Lemma respects_set_r2 (v : float) : respects R (modify (set_r2 v)).
Proof. intros vm out a vm' out' [= _ <- <-]. apply R_r2. Qed.

Lemma respects_to_host (host : byte_order) (bs : list Z) (size : nat) :
  respects R (to_host host bs size).
Proof.
  unfold to_host. destruct (LITTLE_ENDIAN host); [|apply respects_ret].
  destruct (Codec.convertToLittleEndian bs size);
    [apply respects_ret | apply respects_undef].
Qed.

Ltac respects :=
  repeat first
    [ apply respects_to_host | apply respects_PUSH | apply respects_POP | apply respects_operand
    | apply respects_set_pc | apply respects_set_r1 | apply respects_set_r2
    | apply respects_printf | apply respects_ret | apply respects_get
    | apply respects_undef | apply respects_if
    | apply respects_bind; [|intros ?] ].

Lemma respects_exec (host : byte_order) (b : Z) : respects R (exec host b).
Proof.
  unfold exec. destruct (opcode_of b) as [o|];
    [destruct o|]; unfold jump_if, dconst, JMP; respects.
Qed.

Lemma respects_step (host : byte_order) : respects R (step host).
Proof.
  unfold step. apply respects_bind; [apply respects_NCODE|].
  intros c. apply respects_exec.
Qed.

Lemma respects_run (host : byte_order) (fuel : nat) : respects R (run host fuel).
Proof.
  induction fuel as [|fuel IH]; simpl.
  - apply respects_ret.
  - apply respects_bind; [apply respects_step|].
    intros [status|]; [apply respects_ret | exact IH].
Qed.

End Respects.

(** ** The bytecode is read-only *)

(** X1.  [run] never writes the bytecode: whatever the program does and
    however the run ends, the machine still points to the same bytes. *)
Theorem run_keeps_code (host : byte_order) (fuel : nat) (vm vm' : VM)
    (out out' : string) (r : option Z) :
  run host fuel vm out = Ok r vm' out' -> code vm' = code vm.
Proof.
  apply (respects_run same_code); unfold same_code; intros; try reflexivity.
  congruence.
Qed.

Lemma run_keeps_code_witness :
  code (mkVM 100%float 233%float fibonacciCode
          (<[2 := 100%float]> (<[1 := 233%float]> (<[0 := 144%float]> ∅))) 34 1)
  = code (newVM fibonacciCode).
Proof.
  apply (run_keeps_code LittleEndianHost 121 (newVM fibonacciCode) _ ""
           fibonacci_output (Some EXIT_SUCCESS)).
  vm_compute. reflexivity.
Defined.

(** ** Output is only appended to *)

Lemma append_nil_r (s : string) : s +:+ "" = s.
Proof.
  induction s as [|c s IH]; [reflexivity|].
  change (String c (s +:+ "") = String c s). f_equal. exact IH.
Qed.

Lemma append_assoc (s t u : string) : (s +:+ t) +:+ u = s +:+ (t +:+ u).
Proof.
  induction s as [|c s IH]; [reflexivity|].
  change (String c ((s +:+ t) +:+ u) = String c (s +:+ (t +:+ u))).
  f_equal. exact IH.
Qed.

(** X2.  [run] only appends to the text printed so far: what was printed
    before stays a prefix of the output, whether the run ends in success,
    in failure or is cut short. *)
Theorem run_output_extends (host : byte_order) (fuel : nat) (vm vm' : VM)
    (out out' : string) (r : option Z) :
  run host fuel vm out = Ok r vm' out' -> exists s, out' = out +:+ s.
Proof.
  apply (respects_run output_extended); unfold output_extended.
  - intros ? o. exists "". symmetry. apply append_nil_r.
  - intros ? o1 ? o2 ? o3 [s ->] [t ->]. exists (s +:+ t). apply append_assoc.
  - intros ? ? o. exists "". symmetry. apply append_nil_r.
  - intros ? ? o. exists "". symmetry. apply append_nil_r.
  - intros ? ? o. exists "". symmetry. apply append_nil_r.
  - intros s ? o. exists s. reflexivity.
  - intros ? ? o _. exists "". symmetry. apply append_nil_r.
  - intros ? ? o _ _. exists "". symmetry. apply append_nil_r.
Qed.

Lemma run_output_extends_witness :
  exists s, "seen: RuntimeException: Division by zero @ PC = 3" +:+ Libc.newline
            = "seen: " +:+ s.
Proof.
  apply (run_output_extends BigEndianHost 3 (newVM div_by_zero_code)
           (mkVM 0%float 0%float div_by_zero_code
              (<[1 := 0%float]> (<[0 := 1%float]> ∅)) 3 (-1))
           "seen: " _ (Some EXIT_FAILURE)).
  vm_compute. reflexivity.
Defined.

(** ** The stack discipline *)

Lemma well_formed_push (v : float) (vm : VM) :
  0 <= sp vm + 1 < STACK_SIZE -> well_formed vm ->
  well_formed (set_stack (<[sp vm + 1 := v]> (stack vm)) (set_sp (sp vm + 1) vm)).
Proof.
  intros Hb [Hsp Hw]. split; simpl; [lia|].
  intros i Hi. destruct (decide (i = sp vm + 1)) as [->|Hne].
  - rewrite lookup_insert_eq. eauto.
  - rewrite lookup_insert_ne by congruence. apply Hw. lia.
Qed.

Lemma well_formed_pop (vm : VM) :
  0 <= sp vm < STACK_SIZE -> well_formed vm ->
  well_formed (set_sp (sp vm - 1) vm).
Proof.
  intros Hb [Hsp Hw]. split; simpl; [lia|]. intros i Hi. apply Hw. lia.
Qed.

Lemma disciplined_ret {A} (a : A) : disciplined (ret a).
Proof. intros vm out Hw. exact Hw. Qed.

Lemma disciplined_get {A} (g : VM -> A) : disciplined (get g).
Proof. intros vm out Hw. exact Hw. Qed.

Lemma disciplined_printf (s : string) : disciplined (printf s).
Proof. intros vm out Hw. exact Hw. Qed.

Lemma disciplined_bind {A B} (c : M A) (k : A -> M B) :
  disciplined c -> (forall a, disciplined (k a)) -> disciplined (bind c k).
Proof.
  intros Hc Hk vm out Hw. unfold bind. specialize (Hc vm out Hw).
  destruct (c vm out) as [a vm1 out1|u]; [exact (Hk a vm1 out1 Hc)|].
  destruct u; trivial; discriminate Hc.
Qed.

Lemma disciplined_if {A} (b : bool) (c1 c2 : M A) :
  disciplined c1 -> disciplined c2 -> disciplined (if b then c1 else c2).
Proof. destruct b; trivial. Qed.

Lemma disciplined_PUSH (v : float) : disciplined (PUSH v).
Proof.
  intros vm out Hw. unfold PUSH, bind, get.
  destruct (in_stack (sp vm + 1)) eqn:Hb; [|reflexivity].
  apply well_formed_push; [apply in_stack_true, Hb | exact Hw].
Qed.

Lemma disciplined_POP : disciplined POP.
Proof.
  intros vm out Hw. unfold POP, bind, get.
  destruct (in_stack (sp vm)) eqn:Hb; [|reflexivity].
  apply in_stack_true in Hb.
  destruct (proj2 Hw (sp vm) ltac:(lia)) as [v Hv]. rewrite Hv.
  apply well_formed_pop; assumption.
Qed.

Lemma disciplined_NCODE : disciplined NCODE.
Proof.
  intros vm out Hw. unfold NCODE, bind, get.
  destruct (if 0 <=? pc vm then code vm !! Z.to_nat (pc vm) else None);
    [|reflexivity].
  destruct (pc vm <? INT_MAX); [exact Hw | reflexivity].
Qed.

Lemma disciplined_operand (n : nat) : disciplined (operand n).
Proof.
  intros vm out Hw. unfold operand, bind, get.
  destruct (_ && _); [exact Hw | reflexivity].
Qed.

Lemma disciplined_undef {A} (u : undefined) :
  indeterminate_read (@Undefined A u) = false -> disciplined (@undef A u).
Proof. intros H vm out Hw. exact H. Qed.

Lemma disciplined_registers (f : VM -> VM) :
  (forall vm, sp (f vm) = sp vm /\ stack (f vm) = stack vm) ->
  disciplined (modify f).
Proof.
  intros Hf vm out [Hsp Hs]. destruct (Hf vm) as [E1 E2].
  split; simpl; rewrite ?E1, ?E2; assumption.
Qed.

Lemma disciplined_to_host (host : byte_order) (bs : list Z) (size : nat) :
  disciplined (to_host host bs size).
Proof.
  unfold to_host. destruct (LITTLE_ENDIAN host); [|apply disciplined_ret].
  destruct (Codec.convertToLittleEndian bs size);
    [apply disciplined_ret | apply disciplined_undef; reflexivity].
Qed.

Ltac disciplined :=
  repeat first
    [ apply disciplined_to_host | apply disciplined_PUSH | apply disciplined_POP
    | apply disciplined_operand
    | apply disciplined_registers; intros ?; split; reflexivity
    | apply disciplined_printf | apply disciplined_ret
    | apply disciplined_get
    | apply disciplined_undef; reflexivity
    | apply disciplined_if
    | apply disciplined_bind; [|intros ?] ].

Lemma disciplined_exec (host : byte_order) (b : Z) : disciplined (exec host b).
Proof.
  unfold exec. destruct (opcode_of b) as [o|];
    [destruct o|]; unfold jump_if, dconst, JMP; disciplined.
Qed.

Lemma disciplined_run (host : byte_order) (fuel : nat) :
  disciplined (run host fuel).
Proof.
  induction fuel as [|fuel IH]; simpl.
  - apply disciplined_ret.
  - apply disciplined_bind.
    + unfold step. apply disciplined_bind; [apply disciplined_NCODE|].
      intros c. apply disciplined_exec.
    + intros [status|]; [apply disciplined_ret | exact IH].
Qed.


(** X4.  A run from a well-formed machine, in particular from a new one,
    never reads a stack slot that was not written before: the unset memory
    that [malloc] returned for the stack is never read, whatever the
    bytecode.  [POP] reads [stack[sp]] only while [sp] is at least 0, and
    every slot up to [sp] was filled by a [PUSH]. *)
Theorem run_reads_only_written_slots (host : byte_order) (fuel : nat)
    (vm : VM) (out : string) :
  well_formed vm ->
  indeterminate_read (run host fuel vm out) = false.
Proof.
  intros Hw. pose proof (disciplined_run host fuel vm out Hw) as H.
  destruct (run host fuel vm out) as [r vm' out'|u]; [reflexivity | exact H].
Qed.

Lemma run_reads_only_written_slots_witness :
  indeterminate_read (run BigEndianHost 1 (newVM pop_empty_code) "") = false.
Proof.
  apply (run_reads_only_written_slots BigEndianHost 1 (newVM pop_empty_code) "").
  split; simpl; [unfold STACK_SIZE; lia | intros i Hi; lia].
Defined.

(** ** How the opcodes move [sp] and [pc] *)

Lemma moves_ret {A} (f : VM -> Z) (a : A) : moves f 0 (ret a).
Proof. intros vm out a' vm' out' [= _ <- _]. lia. Qed.

Lemma moves_get {A} (f : VM -> Z) (g : VM -> A) : moves f 0 (get g).
Proof. intros vm out a' vm' out' [= _ <- _]. lia. Qed.

Lemma moves_printf (f : VM -> Z) (s : string) : moves f 0 (printf s).
Proof. intros vm out a' vm' out' [= _ <- _]. lia. Qed.

Lemma moves_undef {A} (f : VM -> Z) (d : Z) (u : undefined) :
  moves f d (@undef A u).
Proof. intros vm out a' vm' out' [=]. Qed.

Lemma moves_modify (f : VM -> Z) (g : VM -> VM) :
  (forall vm, f (g vm) = f vm) -> moves f 0 (modify g).
Proof. intros H vm out a' vm' out' [= _ <- _]. rewrite H. lia. Qed.

Lemma moves_bind {A B} (f : VM -> Z) (d1 d2 d : Z) (c : M A) (k : A -> M B) :
  moves f d1 c -> (forall a, moves f d2 (k a)) -> d = d1 + d2 ->
  moves f d (bind c k).
Proof.
  intros Hc Hk -> vm out b vm' out'. unfold bind.
  destruct (c vm out) as [a vm1 out1|u] eqn:E; [|discriminate].
  intros H. rewrite (Hk a _ _ _ _ _ H), (Hc _ _ _ _ _ E). lia.
Qed.

Lemma moves_if {A} (f : VM -> Z) (d : Z) (b : bool) (c1 c2 : M A) :
  moves f d c1 -> moves f d c2 -> moves f d (if b then c1 else c2).
Proof. destruct b; trivial. Qed.

Lemma moves_sp_PUSH (v : float) : moves sp 1 (PUSH v).
Proof.
  intros vm out a vm' out'. unfold PUSH, bind, get.
  destruct (in_stack (sp vm + 1)); [|discriminate].
  intros [= _ <- _]. reflexivity.
Qed.

Lemma moves_pc_PUSH (v : float) : moves pc 0 (PUSH v).
Proof.
  intros vm out a vm' out'. unfold PUSH, bind, get.
  destruct (in_stack (sp vm + 1)); [|discriminate].
  intros [= _ <- _]. simpl. lia.
Qed.

Lemma moves_sp_POP : moves sp (-1) POP.
Proof.
  intros vm out a vm' out' H. apply POP_inv in H.
  destruct H as (_ & _ & -> & _). simpl. lia.
Qed.

Lemma moves_pc_POP : moves pc 0 POP.
Proof.
  intros vm out a vm' out' H. apply POP_inv in H.
  destruct H as (_ & _ & -> & _). simpl. lia.
Qed.

Lemma moves_operand (f : VM -> Z) (n : nat) : moves f 0 (operand n).
Proof.
  intros vm out a vm' out'. unfold operand, bind, get.
  destruct (_ && _); [|discriminate]. intros [= _ <- _]. lia.
Qed.

Lemma moves_to_host (f : VM -> Z) (host : byte_order) (bs : list Z)
    (size : nat) :
  moves f 0 (to_host host bs size).
Proof.
  unfold to_host. destruct (LITTLE_ENDIAN host); [|apply moves_ret].
  destruct (Codec.convertToLittleEndian bs size);
    [apply moves_ret | apply moves_undef].
Qed.

Ltac moves :=
  first
    [ apply moves_to_host | apply moves_sp_PUSH | apply moves_pc_PUSH
    | apply moves_sp_POP | apply moves_pc_POP
    | apply moves_operand | apply moves_ret | apply moves_get
    | apply moves_printf
    | apply moves_modify; intros ?; reflexivity
    | apply moves_if; [moves | apply moves_undef]
    | eapply moves_bind; [moves | intros ?; moves | reflexivity] ].

Lemma moves_sp_JMP (host : byte_order) : moves sp 0 (JMP host).
Proof. unfold JMP. moves. Qed.

Lemma moves_sp_dconst (host : byte_order) : moves sp 1 (dconst host).
Proof. unfold dconst. moves. Qed.

Lemma moves_pc_dconst (host : byte_order) : moves pc 8 (dconst host).
Proof.
  intros vm out a vm' out'. unfold dconst. unfold bind at 1.
  destruct (operand 8 vm out) as [bs vm1 out1|u] eqn:E; [|discriminate].
  pose proof (moves_operand pc 8 _ _ _ _ _ E) as E1.
  unfold bind at 1, get at 1.
  destruct (pc vm1 + 8 <=? INT_MAX); [|discriminate].
  unfold bind at 1, modify at 1. intros H.
  assert (Hm : moves pc 0 (bs' <- to_host host bs 8 ;;
                           PUSH (Codec.double_of_bytes host bs')))
    by (eapply moves_bind;
        [apply moves_to_host | intros ?; apply moves_pc_PUSH | reflexivity]).
  rewrite (Hm _ _ _ _ _ H). simpl. lia.
Qed.

Lemma moves_sp_jump_if (host : byte_order) (cond : float -> float -> bool) :
  moves sp 0 (jump_if host cond).
Proof.
  unfold jump_if.
  eapply moves_bind; [apply moves_get | intros a | reflexivity].
  eapply moves_bind; [apply moves_get | intros b | reflexivity].
  apply moves_if; [apply moves_sp_JMP | apply moves_ret].
Qed.

(** Every case of the [switch] but [DIV] moves [sp] by the same amount
    whenever it is defined. *)
Lemma moves_sp_exec (host : byte_order) (o : opcodes) :
  o <> DIV -> moves sp (stack_effect o) (exec host (opcode_value o)).
Proof.
  intros Ho. unfold exec. rewrite opcode_of_value.
  destruct o; try contradiction; simpl stack_effect;
    try (eapply moves_bind;
         [first [apply moves_sp_dconst | apply moves_sp_jump_if]
         | intros ?; apply moves_ret | reflexivity]);
    moves.
Qed.

(** The cases without a jump leave [pc] past their operand. *)
Lemma moves_pc_exec (host : byte_order) (o : opcodes) :
  o <> DIV -> jump_cond o = None ->
  moves pc (operand_size o) (exec host (opcode_value o)).
Proof.
  intros Ho Hj. unfold exec. rewrite opcode_of_value.
  destruct o; try contradiction; try discriminate Hj; simpl operand_size;
    try (eapply moves_bind;
         [apply moves_pc_dconst | intros ?; apply moves_ret | reflexivity]);
    moves.
Qed.

(** A [DIV] that ends in [break] has popped two values and pushed one. *)
Lemma exec_DIV_break (host : byte_order) (vm vm' : VM) (out out' : string) :
  exec host (opcode_value DIV) vm out = Ok None vm' out' ->
  sp vm' = sp vm - 1 /\ pc vm' = pc vm.
Proof.
  unfold exec. rewrite opcode_of_value. unfold bind at 1.
  destruct (POP vm out) as [b vm1 out1|u] eqn:E1; [|discriminate].
  unfold bind at 1.
  destruct (POP vm1 out1) as [a vm2 out2|u] eqn:E2; [|discriminate].
  destruct (PrimFloat.eqb b 0).
  - unfold bind, get, printf, ret. discriminate.
  - unfold bind at 1.
    destruct (PUSH (a / b)%float vm2 out2) as [? vm3 out3|u] eqn:E3;
      [|discriminate].
    intros [= <- _].
    rewrite (moves_sp_PUSH _ _ _ _ _ _ E3), (moves_pc_PUSH _ _ _ _ _ _ E3).
    rewrite (moves_sp_POP _ _ _ _ _ E2), (moves_pc_POP _ _ _ _ _ E2).
    rewrite (moves_sp_POP _ _ _ _ _ E1), (moves_pc_POP _ _ _ _ _ E1).
    split; lia.
Qed.

(** X5.  The stack effect and the length of every instruction.  A turn of
    the loop that ends in [break] has moved [sp] by the opcode's stack
    effect: +1 for the constants and loads, -1 for the binary operations,
    [PRINT] and the stores, 0 for [NOP], [NEG] and the jumps.  For every
    opcode other than a jump it has advanced [pc] by one plus the operand
    size, which is 8 for [DCONST] and 0 otherwise. *)
Theorem step_moves_sp_and_pc (host : byte_order) (o : opcodes) (vm vm' : VM)
    (out out' : string) :
  fetch vm = Some (opcode_value o) ->
  step host vm out = Ok None vm' out' ->
  sp vm' = sp vm + stack_effect o
  /\ (jump_cond o = None -> pc vm' = pc vm + 1 + operand_size o).
Proof.
  intros Hf. rewrite (step_fetch _ _ _ _ Hf). intros H.
  assert (Hd : o = DIV \/ o <> DIV)
    by (destruct o; first [left; reflexivity | right; discriminate]).
  destruct Hd as [->|Ho].
  - apply exec_DIV_break in H. simpl in *. destruct H as [-> ->].
    split; [|intros _]; lia.
  - split.
    + rewrite (moves_sp_exec host o Ho _ _ _ _ _ H). reflexivity.
    + intros Hj. rewrite (moves_pc_exec host o Ho Hj _ _ _ _ _ H).
      simpl. lia.
Qed.

Lemma step_moves_sp_and_pc_witness :
  sp (mkVM 0%float 0%float readmebytecode
        (<[0 := Codec.binary64_of_bits 0x4029147AE147AE14]> ∅) 9 0)
  = sp (newVM readmebytecode) + stack_effect DCONST
  /\ (jump_cond DCONST = None ->
      pc (mkVM 0%float 0%float readmebytecode
            (<[0 := Codec.binary64_of_bits 0x4029147AE147AE14]> ∅) 9 0)
      = pc (newVM readmebytecode) + 1 + operand_size DCONST).
Proof.
  apply (step_moves_sp_and_pc LittleEndianHost DCONST (newVM readmebytecode)
           _ "" "").
  - reflexivity.
  - vm_compute. reflexivity.
Defined.

(** ** Fetches and operands outside the bytecode *)

Lemma step_outside_code (host : byte_order) (vm : VM) (out : string) :
  pc vm < 0 \/ Z.of_nat (length (code vm)) <= pc vm ->
  step host vm out = Undefined (CodeOutOfBounds (pc vm)).
Proof.
  intros H. unfold step, NCODE, bind, get.
  destruct (0 <=? pc vm) eqn:E0; [|reflexivity].
  apply Z.leb_le in E0. destruct H as [H|H]; [lia|].
  rewrite (lookup_ge_None_2 (code vm)) by lia. reflexivity.
Qed.

(** X6.  [run] has no end-of-program check: when [pc] stands outside the
    bytecode, before its first byte or past its last, the next fetch is
    undefined.  A program that does not reach [HALT], or an empty one, runs
    off its end instead of stopping. *)
Theorem run_off_the_end_undefined (host : byte_order) (fuel : nat) (vm : VM)
    (out : string) :
  pc vm < 0 \/ Z.of_nat (length (code vm)) <= pc vm ->
  run host (S fuel) vm out = Undefined (CodeOutOfBounds (pc vm)).
Proof.
  intros H. simpl. unfold bind. rewrite (step_outside_code host vm out H).
  reflexivity.
Qed.

Lemma run_off_the_end_undefined_witness :
  run LittleEndianHost 1 (newVM []) "" = Undefined (CodeOutOfBounds 0).
Proof.
  apply (run_off_the_end_undefined LittleEndianHost 0 (newVM []) "").
  right. simpl. lia.
Defined.

Lemma operand_truncated (n : nat) (vm : VM) (out : string) :
  (0 < n)%nat ->
  Z.of_nat (length (code vm)) < pc vm + Z.of_nat n ->
  operand n vm out = Undefined (CodeOutOfBounds (pc vm)).
Proof.
  intros Hn H. unfold operand, bind, get.
  destruct (0 <=? pc vm) eqn:E0; [|reflexivity].
  apply Z.leb_le in E0.
  assert (E : (length (take n (drop (Z.to_nat (pc vm)) (code vm))) =? n)%nat
              = false).
  { apply Nat.eqb_neq. rewrite length_take, length_drop. lia. }
  rewrite E. reflexivity.
Qed.

(** X7.  An operand cut short by the end of the bytecode is undefined: a
    [DCONST] followed by fewer than eight bytes, and a jump whose comparison
    holds followed by fewer than four, read past the end of the bytecode with
    [memcpy]. *)
Theorem truncated_operand_undefined :
  (forall (host : byte_order) (vm : VM) (out : string),
      fetch vm = Some (opcode_value DCONST) ->
      Z.of_nat (length (code vm)) < pc vm + 1 + 8 ->
      step host vm out = Undefined (CodeOutOfBounds (pc vm + 1)))
  /\ (forall (host : byte_order) (vm : VM) (out : string) (o : opcodes)
             (cond : float -> float -> bool),
         jump_cond o = Some cond ->
         fetch vm = Some (opcode_value o) ->
         cond (r1 vm) (r2 vm) = true ->
         Z.of_nat (length (code vm)) < pc vm + 1 + 4 ->
         step host vm out = Undefined (CodeOutOfBounds (pc vm + 1))).
Proof.
  split.
  - intros host vm out Hf Hlen. rewrite (step_fetch _ _ _ _ Hf).
    unfold exec. rewrite opcode_of_value.
    unfold bind at 1, dconst, bind at 1.
    rewrite operand_truncated; [reflexivity | lia | exact Hlen].
  - intros host vm out o cond Hc Hf Ht Hlen. rewrite (step_fetch _ _ _ _ Hf).
    unfold exec. rewrite opcode_of_value.
    destruct o; try discriminate Hc; injection Hc as <-;
      unfold bind at 1, jump_if, bind at 1, get at 1, bind at 1, get at 1;
      cbn [r1 r2 set_pc]; rewrite Ht; unfold JMP, bind at 1;
      (rewrite operand_truncated; [reflexivity | lia | exact Hlen]).
Qed.

Lemma truncated_operand_undefined_witness :
  step BigEndianHost (newVM [opcode_value DCONST; 0x40; 0x59; 0]) ""
  = Undefined (CodeOutOfBounds 1).
Proof.
  apply (proj1 truncated_operand_undefined BigEndianHost
           (newVM [opcode_value DCONST; 0x40; 0x59; 0]) "").
  - reflexivity.
  - simpl. lia.
Defined.

Lemma to_int_range (w : Z) : - 2 ^ 31 <= to_int w < 2 ^ 31.
Proof.
  unfold to_int. pose proof (Z.mod_pos_bound w (2 ^ 32) ltac:(lia)) as Hm.
  destruct (w mod 2 ^ 32 <? 2 ^ 31) eqn:E.
  - apply Z.ltb_lt in E. lia.
  - apply Z.ltb_ge in E. lia.
Qed.

(** X8.  A jump whose comparison holds changes nothing but [pc]: it becomes
    the value of the four operand bytes read most significant byte first as
    a 32-bit two's complement [int], on little-endian and big-endian hosts
    alike.  The target is absolute and lies in the range of [int]; it is not
    compared with the size of the bytecode. *)
Theorem taken_jump_sets_pc (host : byte_order) (vm : VM) (out : string)
    (o : opcodes) (cond : float -> float -> bool) :
  jump_cond o = Some cond ->
  fetch vm = Some (opcode_value o) ->
  cond (r1 vm) (r2 vm) = true ->
  length (operand_bytes 4 vm) = 4%nat ->
  exists target : Z,
    target = to_int (Codec.big_endian (operand_bytes 4 vm))
    /\ - 2 ^ 31 <= target < 2 ^ 31
    /\ step host vm out
       = Ok None (mkVM (r1 vm) (r2 vm) (code vm) (stack vm) target (sp vm)) out.
Proof.
  intros Hc Hf Ht Hlen. eexists. split; [reflexivity|]. split.
  - apply to_int_range.
  - exact (step_jump_taken host vm out o cond Hc Hf Ht Hlen).
Qed.

Lemma taken_jump_sets_pc_witness :
  exists target : Z,
    target
    = to_int (Codec.big_endian
                (operand_bytes 4 (newVM [opcode_value JEQ; 0xFF; 0xFF; 0xFF; 0xFA])))
    /\ - 2 ^ 31 <= target < 2 ^ 31
    /\ step LittleEndianHost (newVM [opcode_value JEQ; 0xFF; 0xFF; 0xFF; 0xFA]) ""
       = Ok None
           (mkVM 0%float 0%float [opcode_value JEQ; 0xFF; 0xFF; 0xFF; 0xFA]
              ∅ target (-1)) "".
Proof.
  apply (taken_jump_sets_pc LittleEndianHost
           (newVM [opcode_value JEQ; 0xFF; 0xFF; 0xFF; 0xFA]) "" JEQ
           PrimFloat.eqb); reflexivity.
Defined.

(** X9.  Jump targets are not validated.  When a jump is taken to a target
    outside the bytecode, negative or past the last byte, the jump itself
    completes and the fetch of the next turn of the loop is undefined. *)
Theorem jump_outside_code_undefined (host : byte_order) (fuel : nat) (vm : VM)
    (out : string) (o : opcodes) (cond : float -> float -> bool) :
  jump_cond o = Some cond ->
  fetch vm = Some (opcode_value o) ->
  cond (r1 vm) (r2 vm) = true ->
  length (operand_bytes 4 vm) = 4%nat ->
  to_int (Codec.big_endian (operand_bytes 4 vm)) < 0
  \/ Z.of_nat (length (code vm))
     <= to_int (Codec.big_endian (operand_bytes 4 vm)) ->
  run host (S (S fuel)) vm out
  = Undefined
      (CodeOutOfBounds (to_int (Codec.big_endian (operand_bytes 4 vm)))).
Proof.
  intros Hc Hf Ht Hlen Hout.
  change (run host (S (S fuel)) vm out)
    with (bind (step host)
            (fun r => match r with
                      | Some status => ret (Some status)
                      | None => run host (S fuel)
                      end) vm out).
  unfold bind at 1. rewrite (step_jump_taken host vm out o cond Hc Hf Ht Hlen).
  simpl. unfold bind.
  rewrite (step_outside_code host _ out); [reflexivity | exact Hout].
Qed.

Lemma jump_outside_code_undefined_witness :
  run BigEndianHost 2 (newVM [opcode_value JEQ; 0xFF; 0xFF; 0xFF; 0xFA]) ""
  = Undefined (CodeOutOfBounds (-6)).
Proof.
  apply (jump_outside_code_undefined BigEndianHost 0
           (newVM [opcode_value JEQ; 0xFF; 0xFF; 0xFF; 0xFA]) "" JEQ
           PrimFloat.eqb).
  - reflexivity.
  - reflexivity.
  - reflexivity.
  - reflexivity.
  - left. vm_compute. reflexivity.
Defined.

(** ** Arithmetic on the stack *)

(** X10.  The four binary operations take the value pushed first as their
    left operand: with [b] on top of the stack and [a] below it, [ADD],
    [SUB], [MUL] and a [DIV] whose divisor is not zero write [a + b],
    [a - b], [a * b], [a / b] over the slot of [a] and leave [sp] there.
    The slot of [b] is not cleared, and nothing is printed. *)
Theorem binary_operation_step (host : byte_order) (vm : VM) (out : string)
    (o : opcodes) (f : float -> float -> float) (a b : float) :
  binop o = Some f ->
  fetch vm = Some (opcode_value o) ->
  1 <= sp vm < STACK_SIZE ->
  stack vm !! sp vm = Some b ->
  stack vm !! (sp vm - 1) = Some a ->
  (o = DIV -> PrimFloat.eqb b 0%float = false) ->
  step host vm out
  = Ok None (mkVM (r1 vm) (r2 vm) (code vm)
               (<[sp vm - 1 := f a b]> (stack vm)) (pc vm + 1) (sp vm - 1)) out.
Proof.
  intros Hop Hf Hsp Hb Ha Hz.
  rewrite (step_fetch _ _ _ _ Hf). unfold exec. rewrite opcode_of_value.
  destruct o; try discriminate Hop; injection Hop as <-;
    unfold bind at 1;
    (rewrite (POP_in_bounds b); [| apply in_stack_true; simpl; lia | exact Hb]);
    unfold bind at 1;
    (rewrite (POP_in_bounds a); [| apply in_stack_true; simpl; lia | exact Ha]);
    try rewrite (Hz eq_refl);
    unfold bind at 1;
    (rewrite PUSH_in_bounds; [| apply in_stack_true; simpl; lia]);
    simpl; unfold ret; do 2 f_equal; solve [lia | f_equal; lia].
Qed.

Lemma binary_operation_step_witness :
  step LittleEndianHost
    (two_on_stack (map opcode_value [DIV; PRINT; HALT]) 0 1 4) ""
  = Ok None
      (mkVM 0%float 0%float (map opcode_value [DIV; PRINT; HALT])
         (<[0 := (1 / 4)%float]>
            (stack (two_on_stack (map opcode_value [DIV; PRINT; HALT]) 0 1 4)))
         1 0) "".
Proof.
  apply (binary_operation_step LittleEndianHost
           (two_on_stack (map opcode_value [DIV; PRINT; HALT]) 0 1 4) "" DIV
           PrimFloat.div 1%float 4%float).
  - reflexivity.
  - reflexivity.
  - simpl. unfold STACK_SIZE. lia.
  - reflexivity.
  - reflexivity.
  - intros _. reflexivity.
Defined.

Lemma opp_involutive (v : float) : (- - v)%float = v.
Proof.
  apply Prim2SF_inj. rewrite !opp_spec.
  destruct (Prim2SF v) as [s|s| |s m e]; simpl; try rewrite negb_involutive;
    reflexivity.
Qed.

Lemma step_NEG (host : byte_order) (vm : VM) (out : string) (v : float) :
  fetch vm = Some (opcode_value NEG) ->
  0 <= sp vm < STACK_SIZE ->
  stack vm !! sp vm = Some v ->
  step host vm out
  = Ok None (mkVM (r1 vm) (r2 vm) (code vm) (<[sp vm := (- v)%float]> (stack vm))
               (pc vm + 1) (sp vm)) out.
Proof.
  intros Hf Hsp Hv.
  rewrite (step_fetch _ _ _ _ Hf). unfold exec. rewrite opcode_of_value.
  unfold bind at 1.
  rewrite (POP_in_bounds v); [| apply in_stack_true; simpl; lia | exact Hv].
  unfold bind at 1.
  rewrite PUSH_in_bounds; [| apply in_stack_true; simpl; lia].
  simpl. unfold ret. do 2 f_equal; [f_equal|]; lia.
Qed.

(** X11.  [NEG] replaces the top of the stack by its negation and keeps
    [sp], and two [NEG]s in a row restore the machine: after both, the stack
    holds what it held before, also when the value is a signed zero, an
    infinity or NaN, and only [pc] has moved. *)
Theorem neg_neg_restores_stack (host : byte_order) (vm : VM) (out : string)
    (v : float) :
  fetch vm = Some (opcode_value NEG) ->
  fetch (set_pc (pc vm + 1) vm) = Some (opcode_value NEG) ->
  0 <= sp vm < STACK_SIZE ->
  stack vm !! sp vm = Some v ->
  step host vm out
  = Ok None (mkVM (r1 vm) (r2 vm) (code vm) (<[sp vm := (- v)%float]> (stack vm))
               (pc vm + 1) (sp vm)) out
  /\ run host 2 vm out
     = Ok None (mkVM (r1 vm) (r2 vm) (code vm) (stack vm) (pc vm + 2) (sp vm))
         out.
Proof.
  intros Hf1 Hf2 Hsp Hv. pose proof (step_NEG host vm out v Hf1 Hsp Hv) as H1.
  split; [exact H1|].
  change (run host 2 vm out)
    with (bind (step host)
            (fun r => match r with
                      | Some status => ret (Some status)
                      | None => run host 1
                      end) vm out).
  unfold bind at 1. rewrite H1. simpl. unfold bind at 1.
  rewrite (step_NEG host _ out (- v)%float);
    [| exact Hf2 | exact Hsp | apply lookup_insert_eq ].
  simpl. unfold ret. rewrite insert_insert_eq, opp_involutive.
  rewrite (insert_id _ _ _ Hv). do 2 f_equal. lia.
Qed.

Lemma neg_neg_restores_stack_witness :
  let vm := two_on_stack (map opcode_value [NEG; NEG; HALT]) 0 3 (-0) in
  step BigEndianHost vm ""
  = Ok None (mkVM 0%float 0%float (code vm) (<[1 := (- -0)%float]> (stack vm))
               1 1) ""
  /\ run BigEndianHost 2 vm ""
     = Ok None (mkVM 0%float 0%float (code vm) (stack vm) 2 1) "".
Proof.
  apply (neg_neg_restores_stack BigEndianHost
           (two_on_stack (map opcode_value [NEG; NEG; HALT]) 0 3 (-0)) ""
           (-0)%float).
  - reflexivity.
  - reflexivity.
  - simpl. unfold STACK_SIZE. lia.
  - reflexivity.
Defined.

(** ** Registers and the stack *)

Lemma run_two_steps (host : byte_order) (vm vm1 vm2 : VM)
    (out out1 out2 : string) :
  step host vm out = Ok None vm1 out1 ->
  step host vm1 out1 = Ok None vm2 out2 ->
  run host 2 vm out = Ok None vm2 out2.
Proof.
  intros H1 H2. simpl. unfold bind. rewrite H1, H2. reflexivity.
Qed.

(** X12.  A store followed by the load of the same register copies the top
    of the stack into the register and leaves the stack as it was: [ST1]
    [LD1] ends with [r1] holding the top value and [sp] and every slot
    unchanged, and so does [ST2] [LD2] for [r2]. *)
Theorem store_then_load_keeps_stack :
  (forall (host : byte_order) (vm : VM) (out : string) (v : float),
      fetch vm = Some (opcode_value ST1) ->
      fetch (set_pc (pc vm + 1) vm) = Some (opcode_value LD1) ->
      0 <= sp vm < STACK_SIZE ->
      stack vm !! sp vm = Some v ->
      run host 2 vm out
      = Ok None (mkVM v (r2 vm) (code vm) (stack vm) (pc vm + 2) (sp vm)) out)
  /\ (forall (host : byte_order) (vm : VM) (out : string) (v : float),
         fetch vm = Some (opcode_value ST2) ->
         fetch (set_pc (pc vm + 1) vm) = Some (opcode_value LD2) ->
         0 <= sp vm < STACK_SIZE ->
         stack vm !! sp vm = Some v ->
         run host 2 vm out
         = Ok None (mkVM (r1 vm) v (code vm) (stack vm) (pc vm + 2) (sp vm))
             out).
Proof.
  split; intros host vm out v Hf1 Hf2 Hsp Hv.
  - eapply run_two_steps; [exact (step_ST1 host vm out v Hf1 Hsp Hv)|].
    rewrite step_LD1; [| exact Hf2 | simpl; lia]. simpl.
    replace (sp vm - 1 + 1) with (sp vm) by lia.
    rewrite (insert_id _ _ _ Hv). do 2 f_equal. lia.
  - eapply run_two_steps; [exact (step_ST2 host vm out v Hf1 Hsp Hv)|].
    rewrite step_LD2; [| exact Hf2 | simpl; lia]. simpl.
    replace (sp vm - 1 + 1) with (sp vm) by lia.
    rewrite (insert_id _ _ _ Hv). do 2 f_equal. lia.
Qed.

Lemma store_then_load_keeps_stack_witness :
  let vm := two_on_stack (map opcode_value [ST1; LD1; HALT]) 0 3 5 in
  run LittleEndianHost 2 vm ""
  = Ok None (mkVM 5%float 0%float (code vm) (stack vm) 2 1) "".
Proof.
  apply (proj1 store_then_load_keeps_stack LittleEndianHost
           (two_on_stack (map opcode_value [ST1; LD1; HALT]) 0 3 5) ""
           5%float).
  - reflexivity.
  - reflexivity.
  - simpl. unfold STACK_SIZE. lia.
  - reflexivity.
Defined.

(** ** The zero test of [DIV] *)

(** [b == 0] holds for the two zeros and for nothing else. *)
Lemma eqb_zero (b : float) :
  PrimFloat.eqb b 0%float = true <-> b = 0%float \/ b = (-0)%float.
Proof.
  rewrite FloatAxioms.eqb_spec. change (Prim2SF 0%float) with (S754_zero false).
  split.
  - intros H. rewrite <- (SF2Prim_Prim2SF b).
    destruct (Prim2SF b) as [s|s| |s m e]; try discriminate H;
      try (destruct s; discriminate H).
    destruct s; [right | left]; reflexivity.
  - intros [-> | ->]; reflexivity.
Qed.

(** X13.  With both operands on the stack, [DIV] ends the run in failure
    exactly when the divisor is [+0.0] or [-0.0].  Every other divisor, a
    subnormal number, an infinity or NaN among them, is divided by and the
    run goes on. *)
Theorem div_fails_exactly_on_zero (host : byte_order) (vm : VM) (out : string)
    (a b : float) :
  fetch vm = Some (opcode_value DIV) ->
  1 <= sp vm < STACK_SIZE ->
  stack vm !! sp vm = Some b ->
  stack vm !! (sp vm - 1) = Some a ->
  (b = 0%float \/ b = (-0)%float) <->
  (exists vm' out', step host vm out = Ok (Some EXIT_FAILURE) vm' out').
Proof.
  intros Hf Hsp Hb Ha. split.
  - intros Hz. apply eqb_zero in Hz. do 2 eexists.
    exact (step_DIV_zero host vm out a b Hf Hsp Hb Ha Hz).
  - intros (vm' & out' & H). apply eqb_zero.
    destruct (PrimFloat.eqb b 0) eqn:E; [reflexivity|]. exfalso.
    revert H. rewrite (step_fetch _ _ _ _ Hf). unfold exec.
    rewrite opcode_of_value. unfold bind at 1.
    rewrite (POP_in_bounds b); [| apply in_stack_true; simpl; lia | exact Hb].
    unfold bind at 1.
    rewrite (POP_in_bounds a); [| apply in_stack_true; simpl; lia | exact Ha].
    rewrite E. unfold bind at 1.
    rewrite PUSH_in_bounds; [discriminate | apply in_stack_true; simpl; lia].
Qed.

Lemma div_fails_exactly_on_zero_witness :
  let vm := two_on_stack div_by_zero_code 2 1 (-0) in
  ((-0)%float = 0%float \/ (-0)%float = (-0)%float) <->
  (exists vm' out',
      step LittleEndianHost vm "" = Ok (Some EXIT_FAILURE) vm' out').
Proof.
  apply (div_fails_exactly_on_zero LittleEndianHost
           (two_on_stack div_by_zero_code 2 1 (-0)) "" 1%float (-0)%float).
  - reflexivity.
  - simpl. unfold STACK_SIZE. lia.
  - reflexivity.
  - reflexivity.
Defined.

(** ** The opcode table *)

(** X14.  The [switch] decodes the enumeration without overlap: a byte
    selects the [case] of an opcode exactly when it is that opcode's value,
    every value fits in an [unsigned char], and no two opcodes share one. *)
Theorem opcode_table_unambiguous :
  (forall (b : Z) (o : opcodes), opcode_of b = Some o <-> b = opcode_value o)
  /\ (forall o : opcodes, 0 <= opcode_value o < 256)
  /\ (forall o o' : opcodes, opcode_value o = opcode_value o' -> o = o').
Proof.
  split; [|split].
  - intros b o. split; [apply opcode_of_Some|].
    intros ->. apply opcode_of_value.
  - intros o. destruct o; simpl; lia.
  - intros o o' H. pose proof (opcode_of_value o) as E.
    rewrite H, opcode_of_value in E. congruence.
Qed.

(** ** The byte swap of objects of any size *)

Lemma swap_lookup (p : list Z) (a b j : nat) :
  (a < length p)%nat -> (b < length p)%nat ->
  Codec.swap p a b !! j
  = if decide (j = b) then p !! a
    else if decide (j = a) then p !! b else p !! j.
Proof.
  intros Ha Hb. unfold Codec.swap.
  destruct (lookup_lt_is_Some_2 p a Ha) as [x Hx].
  destruct (lookup_lt_is_Some_2 p b Hb) as [y Hy].
  rewrite Hx, Hy. rewrite !list_lookup_insert, !length_insert.
  repeat case_decide; subst; try lia; congruence.
Qed.

Lemma swap_length (p : list Z) (a b : nat) :
  length (Codec.swap p a b) = length p.
Proof.
  unfold Codec.swap. destruct (p !! a), (p !! b); trivial.
  rewrite !length_insert. reflexivity.
Qed.

(** X15.  [swap] exchanges the bytes at two offsets inside the object and
    leaves every other byte and the size alone; swapping the same two
    offsets again restores the object. *)
Theorem swap_exchanges (p : list Z) (a b : nat) :
  (a < length p)%nat -> (b < length p)%nat ->
  Codec.swap p a b !! a = p !! b
  /\ Codec.swap p a b !! b = p !! a
  /\ (forall j : nat, j <> a -> j <> b -> Codec.swap p a b !! j = p !! j)
  /\ length (Codec.swap p a b) = length p
  /\ Codec.swap (Codec.swap p a b) a b = p.
Proof.
  intros Ha Hb. repeat split.
  - rewrite swap_lookup by assumption. repeat case_decide; congruence.
  - rewrite swap_lookup by assumption. repeat case_decide; congruence.
  - intros j Hja Hjb. rewrite swap_lookup by assumption.
    repeat case_decide; congruence.
  - apply swap_length.
  - apply list_eq. intros j.
    rewrite swap_lookup by (rewrite swap_length; assumption).
    rewrite !swap_lookup by assumption.
    repeat case_decide; congruence.
Qed.

Lemma swap_exchanges_witness :
  Codec.swap [0x40; 0x59; 0; 6] 0 3 !! 0%nat = [0x40; 0x59; 0; 6] !! 3%nat
  /\ Codec.swap [0x40; 0x59; 0; 6] 0 3 !! 3%nat = [0x40; 0x59; 0; 6] !! 0%nat
  /\ (forall j : nat, j <> 0%nat -> j <> 3%nat ->
      Codec.swap [0x40; 0x59; 0; 6] 0 3 !! j = [0x40; 0x59; 0; 6] !! j)
  /\ length (Codec.swap [0x40; 0x59; 0; 6] 0 3) = length [0x40; 0x59; 0; 6]
  /\ Codec.swap (Codec.swap [0x40; 0x59; 0; 6] 0 3) 0 3 = [0x40; 0x59; 0; 6].
Proof.
  apply (swap_exchanges [0x40; 0x59; 0; 6] 0 3); simpl; lia.
Defined.

Lemma to_int_small (z : Z) : 0 <= z < 2 ^ 31 -> to_int z = z.
Proof.
  intros H. unfold to_int. rewrite Z.mod_small by lia.
  destruct (z <? 2 ^ 31) eqn:E; [reflexivity|]. apply Z.ltb_ge in E. lia.
Qed.

(** While the offsets fit in [int], every call of [swap] stays inside the
    object and the loop exchanges the bytes pairwise from both ends. *)
Lemma convert_loop_in_range (n i size : nat) (p : list Z) :
  (2 * (i + n) <= size <= length p)%nat ->
  Z.of_nat size <= 2 ^ 31 ->
  exists q : list Z,
    Codec.convert_loop n i size p = Some q
    /\ forall j : nat,
        q !! j
        = if decide ((i <= j < i + n)%nat
                     \/ (size - (i + n) <= j < size - i)%nat)
          then p !! (size - 1 - j)%nat
          else p !! j.
Proof.
  revert i p. induction n as [|n IH]; intros i p Hn Hs.
  - exists p. split; [reflexivity|]. intros j. case_decide; [lia | reflexivity].
  - cbn [Codec.convert_loop].
    rewrite !to_int_small by lia. rewrite !Nat2Z.id.
    assert (C : (0 <=? Z.of_nat i) && (Z.of_nat i <? Z.of_nat (length p))
                && (0 <=? Z.of_nat (size - i - 1))
                && (Z.of_nat (size - i - 1) <? Z.of_nat (length p)) = true).
    { rewrite !andb_true_iff, !Z.leb_le, !Z.ltb_lt. lia. }
    rewrite C.
    destruct (IH (S i) (Codec.swap p i (size - i - 1))) as (q & Hq & Hl);
      [rewrite swap_length; lia | exact Hs |].
    exists q. split; [exact Hq|]. intros j. rewrite Hl.
    rewrite !swap_lookup by lia.
    repeat case_decide; try lia; try reflexivity; f_equal; lia.
Qed.

(** The loop of [convertToLittleEndian] reverses the first [size] bytes. *)
Lemma convertToLittleEndian_prefix (p : list Z) (size : nat) :
  (size <= length p)%nat ->
  Z.of_nat size <= 2 ^ 31 ->
  Codec.convertToLittleEndian p size = Some (rev (take size p) ++ drop size p).
Proof.
  intros Hs Hi. unfold Codec.convertToLittleEndian.
  pose proof (Nat.div_mod_eq size 2) as Hd.
  pose proof (Nat.mod_upper_bound size 2 ltac:(lia)) as Hm.
  destruct (convert_loop_in_range (size / 2) 0 size p) as (q & -> & Hl);
    [lia | exact Hi |].
  f_equal. apply list_eq. intros j. rewrite Hl.
  rewrite rev_alt. fold (reverse (take size p)).
  destruct (decide (j < size)%nat) as [Hj|Hj].
  - rewrite lookup_app_l by (rewrite length_reverse, length_take; lia).
    rewrite reverse_lookup by (rewrite length_take; lia).
    rewrite length_take, lookup_take_lt by lia.
    case_decide as Hc.
    + f_equal. lia.
    + assert (j = (size / 2)%nat /\ (size mod 2 = 1)%nat) as [-> Ho] by lia.
      f_equal. lia.
  - rewrite lookup_app_r by (rewrite length_reverse, length_take; lia).
    rewrite length_reverse, length_take, lookup_drop.
    case_decide; [lia|]. f_equal. lia.
Qed.

(** X16.  [convertToLittleEndian(v, size)] reverses the [size] bytes of the
    object at [v] for every size up to 2^31, the sizes whose offsets
    [swap] receives unchanged in its [int] parameters, and so not only for
    the 4 and 8 the machine uses: no call of [swap] leaves the object, the
    byte at offset [i] ends at offset [size - 1 - i], the middle byte of an
    object of odd size stays, and the bytes after the object are not
    touched. *)
Theorem convertToLittleEndian_reverses (p : list Z) (size : nat) :
  (size <= length p)%nat ->
  Z.of_nat size <= 2 ^ 31 ->
  Codec.convertToLittleEndian p size = Some (rev (take size p) ++ drop size p)
  /\ length (rev (take size p) ++ drop size p) = length p.
Proof.
  intros Hs Hi. split.
  - exact (convertToLittleEndian_prefix p size Hs Hi).
  - rewrite length_app, length_rev, length_take, length_drop. lia.
Qed.

Lemma convertToLittleEndian_reverses_witness :
  Codec.convertToLittleEndian [1; 2; 3; 4; 5; 6; 7] 5
  = Some (rev (take 5 [1; 2; 3; 4; 5; 6; 7]) ++ drop 5 [1; 2; 3; 4; 5; 6; 7])
  /\ length (rev (take 5 [1; 2; 3; 4; 5; 6; 7]) ++ drop 5 [1; 2; 3; 4; 5; 6; 7])
     = length [1; 2; 3; 4; 5; 6; 7].
Proof.
  apply (convertToLittleEndian_reverses [1; 2; 3; 4; 5; 6; 7] 5).
  - simpl. lia.
  - simpl. lia.
Defined.

(** X17.  Within the same bound on the size, up to 2^31, converting twice
    gives the object back: the byte swap is its own inverse, so the same
    function turns wire order into host order and host order into wire
    order. *)
Theorem convertToLittleEndian_involutive (p : list Z) (size : nat) :
  (size <= length p)%nat ->
  Z.of_nat size <= 2 ^ 31 ->
  exists q : list Z,
    Codec.convertToLittleEndian p size = Some q
    /\ Codec.convertToLittleEndian q size = Some p.
Proof.
  intros Hs Hi. eexists. split.
  - exact (convertToLittleEndian_prefix p size Hs Hi).
  - assert (Hl : size = length (rev (take size p)))
      by (rewrite length_rev, length_take; lia).
    rewrite convertToLittleEndian_prefix;
      [| rewrite length_app, length_rev, length_take, length_drop; lia
       | exact Hi].
    rewrite (take_app_length' _ _ _ Hl), (drop_app_length' _ _ _ Hl).
    rewrite rev_involutive, take_drop. reflexivity.
Qed.

Lemma convertToLittleEndian_involutive_witness :
  exists q : list Z,
    Codec.convertToLittleEndian
      [0x40; 0x29; 0x14; 0x7A; 0xE1; 0x47; 0xAE; 0x14] 8 = Some q
    /\ Codec.convertToLittleEndian q 8
       = Some [0x40; 0x29; 0x14; 0x7A; 0xE1; 0x47; 0xAE; 0x14].
Proof.
  apply (convertToLittleEndian_involutive
           [0x40; 0x29; 0x14; 0x7A; 0xE1; 0x47; 0xAE; 0x14] 8).
  - simpl. lia.
  - simpl. lia.
Defined.
